(** * Interactive query refinement sessions

    A model of [smqtk_iqr.iqr.iqr_session.IqrSession]: the adjudication
    sets, the working set grown from a nearest-neighbour index, the
    refinement step, the four cached ordered views and the state codec.

    Modelling conventions.
    - A descriptor element is the pair of its key and its optional vector.
      Python hashes a [DescriptorElement] by its key; membership in a set
      of descriptors is membership of that pair.
    - Python floats are the rationals they denote; the session only stores
      and compares them.
    - A [dict] is an association list in insertion order with unique keys.
    - Every method is a computation over the session that returns a result
      or a raised exception, the session after the call, and the list of
      lock and attribute events of the call.
    - Iterating over a set visits [elements] of it.
    - The session's [uuid] attribute is [session_uid] here, the name of
      the constructor's parameter; [uuid] is the key of a descriptor.
      Logging is left out. *)

From Stdlib Require Import QArith Sorted Permutation.
From stdpp Require Import gmap strings list.

Local Open Scope Z_scope.
Local Open Scope nat_scope.

(** ** Descriptors *)

#[global] Instance Q_eq_dec : EqDecision Q.
Proof. solve_decision. Defined.

#[global] Instance Q_countable : Countable Q.
Proof.
  refine (inj_countable' (fun q => (Qnum q, Qden q))
                         (fun p => Qmake p.1 p.2) _).
  by intros [].
Defined.

Record DescriptorElement := {
  uuid : string;
  vector : option (list Q)
}.

#[global] Instance DescriptorElement_eq_dec : EqDecision DescriptorElement.
Proof. solve_decision. Defined.

#[global] Instance DescriptorElement_countable : Countable DescriptorElement.
Proof.
  refine (inj_countable' (fun d => (uuid d, vector d))
                         (fun p => Build_DescriptorElement p.1 p.2) _).
  by intros [].
Defined.

Definition set_vector (d : DescriptorElement) (v : list Q)
    : DescriptorElement :=
  {| uuid := uuid d; vector := Some v |}.

(** ** Exceptions and results *)

Inductive exn :=
| RuntimeError (msg : string)
| ValueError (msg : string)
| AssertionError (msg : string)
| AttributeError (msg : string)
| KeyError (key : string)
| CollaboratorError (who : string).

Inductive Result (A : Type) :=
| Ok (a : A)
| Raised (e : exn).
Arguments Ok {A} a.
Arguments Raised {A} e.

(** The outcome of a call to a collaborator.  The code passes on whatever
    the collaborator raises; here that is one error per collaborator,
    which is none of the session's own errors. *)
Definition call_result {A} (who : string) (r : option A) : Result A :=
  match r with Some a => Ok a | None => Raised (CollaboratorError who) end.

(** ** Python dictionaries *)

Section PyDict.
Context {K V : Type} `{EqDecision K}.

Fixpoint dict_get (k : K) (d : list (K * V)) : option V :=
  match d with
  | [] => None
  | (k', v) :: d' => if decide (k = k') then Some v else dict_get k d'
  end.

(** [d[k] = v]: a present key keeps its place and takes the new value,
    a new key goes to the end. *)
Fixpoint dict_set (k : K) (v : V) (d : list (K * V)) : list (K * V) :=
  match d with
  | [] => [(k, v)]
  | (k', v') :: d' =>
      if decide (k = k') then (k', v) :: d' else (k', v') :: dict_set k v d'
  end.

(** [dict(pairs)] *)
Definition dict_of_pairs (pairs : list (K * V)) : list (K * V) :=
  foldl (fun d kv => dict_set kv.1 kv.2 d) [] pairs.
End PyDict.

(** ** The in-memory descriptor set (the working set's container)

    [MemoryDescriptorSet] keeps a table from key to descriptor. *)

Definition MemoryDescriptorSet := list (string * DescriptorElement).

Definition add_many_descriptors (descriptors : list DescriptorElement)
    (t : MemoryDescriptorSet) : MemoryDescriptorSet :=
  foldl (fun t d => dict_set (uuid d) d t) t descriptors.

Definition iterdescriptors (t : MemoryDescriptorSet)
    : list DescriptorElement := t.*2.

Fixpoint get_many_descriptors (uuids : list string)
    (t : MemoryDescriptorSet) : Result (list DescriptorElement) :=
  match uuids with
  | [] => Ok []
  | u :: us =>
      match dict_get u t with
      | None => Raised (KeyError u)
      | Some d =>
          match get_many_descriptors us t with
          | Ok ds => Ok (d :: ds)
          | Raised e => Raised e
          end
      end
  end.

(** The items of the table transposed by [zip] and unpacked into two
    names: the keys and the descriptors.  An empty table gives nothing to
    unpack. *)
Definition unzip_items (t : MemoryDescriptorSet)
    : option (list string * list DescriptorElement) :=
  match t with
  | [] => None
  | _ :: _ => Some (t.*1, t.*2)
  end.

(** ** Collaborators *)

(** [nn_index.nn(d, n)[0]]; [None] when the index raises. *)
Definition NearestNeighborsIndex :=
  DescriptorElement -> Z -> option (list DescriptorElement).

(** [rank_with_feedback(pos, neg, pool, pool_uids)]; [None] when the
    ranker raises. *)
Definition RankRelevancyWithFeedback :=
  list (option (list Q)) -> list (option (list Q)) ->
  list (option (list Q)) -> list string ->
  option (list Q * list string).

(** [descriptor_factory.new_descriptor(uid)] *)
Definition DescriptorElementFactory := string -> DescriptorElement.

(** ** [sorted(items, key=lambda p: p[1], reverse=True)]

    A stable sort by descending score: an item goes in front of the first
    item whose score is not above its own.  Scores are rationals: a NaN
    score, which Python's comparisons do not order, is not represented. *)

Fixpoint insert_by_score (x : DescriptorElement * Q)
    (l : list (DescriptorElement * Q)) : list (DescriptorElement * Q) :=
  match l with
  | [] => [x]
  | y :: l' =>
      if Qle_bool y.2 x.2 then x :: y :: l' else y :: insert_by_score x l'
  end.

Definition sorted_by_score_reverse (items : list (DescriptorElement * Q))
    : list (DescriptorElement * Q) :=
  foldr insert_by_score [] items.

(** ** The session *)

Record IqrSession := {
  session_uid : string;
  (** hold count of the reentrant lock for the calling thread *)
  lock : nat;
  pos_seed_neighbors : Z;
  working_set : MemoryDescriptorSet;
  _wi_seeds_used : gset string;
  external_positive_descriptors : gset DescriptorElement;
  external_negative_descriptors : gset DescriptorElement;
  positive_descriptors : gset DescriptorElement;
  negative_descriptors : gset DescriptorElement;
  rank_contrib_pos : gset DescriptorElement;
  rank_contrib_pos_ext : gset DescriptorElement;
  rank_contrib_neg : gset DescriptorElement;
  rank_contrib_neg_ext : gset DescriptorElement;
  results : option (list (DescriptorElement * Q));
  feedback_list : option (list DescriptorElement);
  _ordered_results : option (list (DescriptorElement * Q));
  _ordered_pos : option (list (DescriptorElement * Q));
  _ordered_neg : option (list (DescriptorElement * Q));
  _ordered_non_adj : option (list (DescriptorElement * Q));
  rank_relevancy_with_feedback : RankRelevancyWithFeedback
}.

(** [IqrSession.__init__] *)
Definition new_session (rank : RankRelevancyWithFeedback)
    (pos_seed_neighbors : Z) (session_uid : string) : IqrSession :=
  {| session_uid := session_uid;
     lock := 0;
     pos_seed_neighbors := pos_seed_neighbors;
     working_set := [];
     _wi_seeds_used := ∅;
     external_positive_descriptors := ∅;
     external_negative_descriptors := ∅;
     positive_descriptors := ∅;
     negative_descriptors := ∅;
     rank_contrib_pos := ∅;
     rank_contrib_pos_ext := ∅;
     rank_contrib_neg := ∅;
     rank_contrib_neg_ext := ∅;
     results := None;
     feedback_list := None;
     _ordered_results := None;
     _ordered_pos := None;
     _ordered_neg := None;
     _ordered_non_adj := None;
     rank_relevancy_with_feedback := rank |}.

(** Attribute updates, one per mutable attribute. *)

Definition upd_lock (f : nat -> nat)
    (s : IqrSession) : IqrSession :=
  Build_IqrSession (session_uid s) (f (lock s)) (pos_seed_neighbors s)
    (working_set s) (_wi_seeds_used s) (external_positive_descriptors s)
    (external_negative_descriptors s) (positive_descriptors s)
    (negative_descriptors s) (rank_contrib_pos s) (rank_contrib_pos_ext s)
    (rank_contrib_neg s) (rank_contrib_neg_ext s) (results s)
    (feedback_list s) (_ordered_results s) (_ordered_pos s) (_ordered_neg s)
    (_ordered_non_adj s) (rank_relevancy_with_feedback s).

Definition upd_working_set (f : MemoryDescriptorSet -> MemoryDescriptorSet)
    (s : IqrSession) : IqrSession :=
  Build_IqrSession (session_uid s) (lock s) (pos_seed_neighbors s)
    (f (working_set s)) (_wi_seeds_used s) (external_positive_descriptors s)
    (external_negative_descriptors s) (positive_descriptors s)
    (negative_descriptors s) (rank_contrib_pos s) (rank_contrib_pos_ext s)
    (rank_contrib_neg s) (rank_contrib_neg_ext s) (results s)
    (feedback_list s) (_ordered_results s) (_ordered_pos s) (_ordered_neg s)
    (_ordered_non_adj s) (rank_relevancy_with_feedback s).

Definition upd_wi_seeds_used (f : gset string -> gset string)
    (s : IqrSession) : IqrSession :=
  Build_IqrSession (session_uid s) (lock s) (pos_seed_neighbors s)
    (working_set s) (f (_wi_seeds_used s)) (external_positive_descriptors s)
    (external_negative_descriptors s) (positive_descriptors s)
    (negative_descriptors s) (rank_contrib_pos s) (rank_contrib_pos_ext s)
    (rank_contrib_neg s) (rank_contrib_neg_ext s) (results s)
    (feedback_list s) (_ordered_results s) (_ordered_pos s) (_ordered_neg s)
    (_ordered_non_adj s) (rank_relevancy_with_feedback s).

Definition upd_external_positive_descriptors (f : gset DescriptorElement -> gset DescriptorElement)
    (s : IqrSession) : IqrSession :=
  Build_IqrSession (session_uid s) (lock s) (pos_seed_neighbors s)
    (working_set s) (_wi_seeds_used s) (f (external_positive_descriptors s))
    (external_negative_descriptors s) (positive_descriptors s)
    (negative_descriptors s) (rank_contrib_pos s) (rank_contrib_pos_ext s)
    (rank_contrib_neg s) (rank_contrib_neg_ext s) (results s)
    (feedback_list s) (_ordered_results s) (_ordered_pos s) (_ordered_neg s)
    (_ordered_non_adj s) (rank_relevancy_with_feedback s).

Definition upd_external_negative_descriptors (f : gset DescriptorElement -> gset DescriptorElement)
    (s : IqrSession) : IqrSession :=
  Build_IqrSession (session_uid s) (lock s) (pos_seed_neighbors s)
    (working_set s) (_wi_seeds_used s) (external_positive_descriptors s)
    (f (external_negative_descriptors s)) (positive_descriptors s)
    (negative_descriptors s) (rank_contrib_pos s) (rank_contrib_pos_ext s)
    (rank_contrib_neg s) (rank_contrib_neg_ext s) (results s)
    (feedback_list s) (_ordered_results s) (_ordered_pos s) (_ordered_neg s)
    (_ordered_non_adj s) (rank_relevancy_with_feedback s).

Definition upd_positive_descriptors (f : gset DescriptorElement -> gset DescriptorElement)
    (s : IqrSession) : IqrSession :=
  Build_IqrSession (session_uid s) (lock s) (pos_seed_neighbors s)
    (working_set s) (_wi_seeds_used s) (external_positive_descriptors s)
    (external_negative_descriptors s) (f (positive_descriptors s))
    (negative_descriptors s) (rank_contrib_pos s) (rank_contrib_pos_ext s)
    (rank_contrib_neg s) (rank_contrib_neg_ext s) (results s)
    (feedback_list s) (_ordered_results s) (_ordered_pos s) (_ordered_neg s)
    (_ordered_non_adj s) (rank_relevancy_with_feedback s).

Definition upd_negative_descriptors (f : gset DescriptorElement -> gset DescriptorElement)
    (s : IqrSession) : IqrSession :=
  Build_IqrSession (session_uid s) (lock s) (pos_seed_neighbors s)
    (working_set s) (_wi_seeds_used s) (external_positive_descriptors s)
    (external_negative_descriptors s) (positive_descriptors s)
    (f (negative_descriptors s)) (rank_contrib_pos s)
    (rank_contrib_pos_ext s) (rank_contrib_neg s) (rank_contrib_neg_ext s)
    (results s) (feedback_list s) (_ordered_results s) (_ordered_pos s)
    (_ordered_neg s) (_ordered_non_adj s) (rank_relevancy_with_feedback s).

Definition upd_rank_contrib_pos (f : gset DescriptorElement -> gset DescriptorElement)
    (s : IqrSession) : IqrSession :=
  Build_IqrSession (session_uid s) (lock s) (pos_seed_neighbors s)
    (working_set s) (_wi_seeds_used s) (external_positive_descriptors s)
    (external_negative_descriptors s) (positive_descriptors s)
    (negative_descriptors s) (f (rank_contrib_pos s))
    (rank_contrib_pos_ext s) (rank_contrib_neg s) (rank_contrib_neg_ext s)
    (results s) (feedback_list s) (_ordered_results s) (_ordered_pos s)
    (_ordered_neg s) (_ordered_non_adj s) (rank_relevancy_with_feedback s).

Definition upd_rank_contrib_pos_ext (f : gset DescriptorElement -> gset DescriptorElement)
    (s : IqrSession) : IqrSession :=
  Build_IqrSession (session_uid s) (lock s) (pos_seed_neighbors s)
    (working_set s) (_wi_seeds_used s) (external_positive_descriptors s)
    (external_negative_descriptors s) (positive_descriptors s)
    (negative_descriptors s) (rank_contrib_pos s)
    (f (rank_contrib_pos_ext s)) (rank_contrib_neg s)
    (rank_contrib_neg_ext s) (results s) (feedback_list s)
    (_ordered_results s) (_ordered_pos s) (_ordered_neg s)
    (_ordered_non_adj s) (rank_relevancy_with_feedback s).

Definition upd_rank_contrib_neg (f : gset DescriptorElement -> gset DescriptorElement)
    (s : IqrSession) : IqrSession :=
  Build_IqrSession (session_uid s) (lock s) (pos_seed_neighbors s)
    (working_set s) (_wi_seeds_used s) (external_positive_descriptors s)
    (external_negative_descriptors s) (positive_descriptors s)
    (negative_descriptors s) (rank_contrib_pos s) (rank_contrib_pos_ext s)
    (f (rank_contrib_neg s)) (rank_contrib_neg_ext s) (results s)
    (feedback_list s) (_ordered_results s) (_ordered_pos s) (_ordered_neg s)
    (_ordered_non_adj s) (rank_relevancy_with_feedback s).

Definition upd_rank_contrib_neg_ext (f : gset DescriptorElement -> gset DescriptorElement)
    (s : IqrSession) : IqrSession :=
  Build_IqrSession (session_uid s) (lock s) (pos_seed_neighbors s)
    (working_set s) (_wi_seeds_used s) (external_positive_descriptors s)
    (external_negative_descriptors s) (positive_descriptors s)
    (negative_descriptors s) (rank_contrib_pos s) (rank_contrib_pos_ext s)
    (rank_contrib_neg s) (f (rank_contrib_neg_ext s)) (results s)
    (feedback_list s) (_ordered_results s) (_ordered_pos s) (_ordered_neg s)
    (_ordered_non_adj s) (rank_relevancy_with_feedback s).

Definition upd_results (f : option (list (DescriptorElement * Q)) -> option (list (DescriptorElement * Q)))
    (s : IqrSession) : IqrSession :=
  Build_IqrSession (session_uid s) (lock s) (pos_seed_neighbors s)
    (working_set s) (_wi_seeds_used s) (external_positive_descriptors s)
    (external_negative_descriptors s) (positive_descriptors s)
    (negative_descriptors s) (rank_contrib_pos s) (rank_contrib_pos_ext s)
    (rank_contrib_neg s) (rank_contrib_neg_ext s) (f (results s))
    (feedback_list s) (_ordered_results s) (_ordered_pos s) (_ordered_neg s)
    (_ordered_non_adj s) (rank_relevancy_with_feedback s).

Definition upd_feedback_list (f : option (list DescriptorElement) -> option (list DescriptorElement))
    (s : IqrSession) : IqrSession :=
  Build_IqrSession (session_uid s) (lock s) (pos_seed_neighbors s)
    (working_set s) (_wi_seeds_used s) (external_positive_descriptors s)
    (external_negative_descriptors s) (positive_descriptors s)
    (negative_descriptors s) (rank_contrib_pos s) (rank_contrib_pos_ext s)
    (rank_contrib_neg s) (rank_contrib_neg_ext s) (results s)
    (f (feedback_list s)) (_ordered_results s) (_ordered_pos s)
    (_ordered_neg s) (_ordered_non_adj s) (rank_relevancy_with_feedback s).

Definition upd_ordered_results (f : option (list (DescriptorElement * Q)) -> option (list (DescriptorElement * Q)))
    (s : IqrSession) : IqrSession :=
  Build_IqrSession (session_uid s) (lock s) (pos_seed_neighbors s)
    (working_set s) (_wi_seeds_used s) (external_positive_descriptors s)
    (external_negative_descriptors s) (positive_descriptors s)
    (negative_descriptors s) (rank_contrib_pos s) (rank_contrib_pos_ext s)
    (rank_contrib_neg s) (rank_contrib_neg_ext s) (results s)
    (feedback_list s) (f (_ordered_results s)) (_ordered_pos s)
    (_ordered_neg s) (_ordered_non_adj s) (rank_relevancy_with_feedback s).

Definition upd_ordered_pos (f : option (list (DescriptorElement * Q)) -> option (list (DescriptorElement * Q)))
    (s : IqrSession) : IqrSession :=
  Build_IqrSession (session_uid s) (lock s) (pos_seed_neighbors s)
    (working_set s) (_wi_seeds_used s) (external_positive_descriptors s)
    (external_negative_descriptors s) (positive_descriptors s)
    (negative_descriptors s) (rank_contrib_pos s) (rank_contrib_pos_ext s)
    (rank_contrib_neg s) (rank_contrib_neg_ext s) (results s)
    (feedback_list s) (_ordered_results s) (f (_ordered_pos s))
    (_ordered_neg s) (_ordered_non_adj s) (rank_relevancy_with_feedback s).

Definition upd_ordered_neg (f : option (list (DescriptorElement * Q)) -> option (list (DescriptorElement * Q)))
    (s : IqrSession) : IqrSession :=
  Build_IqrSession (session_uid s) (lock s) (pos_seed_neighbors s)
    (working_set s) (_wi_seeds_used s) (external_positive_descriptors s)
    (external_negative_descriptors s) (positive_descriptors s)
    (negative_descriptors s) (rank_contrib_pos s) (rank_contrib_pos_ext s)
    (rank_contrib_neg s) (rank_contrib_neg_ext s) (results s)
    (feedback_list s) (_ordered_results s) (_ordered_pos s)
    (f (_ordered_neg s)) (_ordered_non_adj s)
    (rank_relevancy_with_feedback s).

Definition upd_ordered_non_adj (f : option (list (DescriptorElement * Q)) -> option (list (DescriptorElement * Q)))
    (s : IqrSession) : IqrSession :=
  Build_IqrSession (session_uid s) (lock s) (pos_seed_neighbors s)
    (working_set s) (_wi_seeds_used s) (external_positive_descriptors s)
    (external_negative_descriptors s) (positive_descriptors s)
    (negative_descriptors s) (rank_contrib_pos s) (rank_contrib_pos_ext s)
    (rank_contrib_neg s) (rank_contrib_neg_ext s) (results s)
    (feedback_list s) (_ordered_results s) (_ordered_pos s) (_ordered_neg s)
    (f (_ordered_non_adj s)) (rank_relevancy_with_feedback s).

(** ** Computations over a session

    A call reads and writes attributes of the session, takes and gives
    back the session lock, and either returns or raises.  [Access n]
    records a read or write of a session attribute made while the calling
    thread holds the lock [n] times. *)

Inductive Event :=
| Acquire
| Release
| Access (held : nat).

Definition Op (A : Type) : Type :=
  IqrSession -> Result A * IqrSession * list Event.

Definition result_of {A} (r : Result A * IqrSession * list Event)
    : Result A := r.1.1.
Definition state_of {A} (r : Result A * IqrSession * list Event)
    : IqrSession := r.1.2.
Definition trace_of {A} (r : Result A * IqrSession * list Event)
    : list Event := r.2.

#[global] Instance Op_ret : MRet Op := fun A a s => (Ok a, s, []).

#[global] Instance Op_bind : MBind Op := fun A B k m s =>
  match m s with
  | (Ok a, s1, t1) =>
      match k a s1 with (r, s2, t2) => (r, s2, t1 ++ t2) end
  | (Raised e, s1, t1) => (Raised e, s1, t1)
  end.

Definition raise {A} (e : exn) : Op A := fun s => (Raised e, s, []).

Definition lift {A} (r : Result A) : Op A := fun s => (r, s, []).

(** [self.attr] read *)
Definition load {A} (attr : IqrSession -> A) : Op A :=
  fun s => (Ok (attr s), s, [Access (lock s)]).

(** [self.attr = v], or a method of [self.attr] that changes it in place *)
Definition mutate (upd : IqrSession -> IqrSession) : Op unit :=
  fun s => (Ok tt, upd s, [Access (lock s)]).

(** [with self.lock: body] and [with self: body]: the lock is given back
    on return and on raise. *)
Definition with_lock {A} (body : Op A) : Op A :=
  fun s =>
    match body (upd_lock S s) with
    | (r, s1, t) => (r, upd_lock Nat.pred s1, Acquire :: t ++ [Release])
    end.

Definition when (b : bool) (body : Op unit) : Op unit :=
  if b then body else mret tt.

Fixpoint for_each {X} (l : list X) (body : X -> Op unit) : Op unit :=
  match l with
  | [] => mret tt
  | x :: l' => body x;; for_each l' body
  end.

(** ** Adjudication *)

Definition external_descriptors (positive negative : list DescriptorElement)
    : Op unit :=
  let positive : gset DescriptorElement := list_to_set positive in
  let negative : gset DescriptorElement := list_to_set negative in
  with_lock (
    mutate (upd_external_positive_descriptors (fun X => X ∪ positive));;
    mutate (upd_external_positive_descriptors (fun X => X ∖ negative));;
    mutate (upd_external_negative_descriptors (fun X => X ∪ negative));;
    mutate (upd_external_negative_descriptors (fun X => X ∖ positive))).

Definition adjudicate
    (new_positives new_negatives un_positives un_negatives
       : list DescriptorElement) : Op unit :=
  let new_positives : gset DescriptorElement := list_to_set new_positives in
  let new_negatives : gset DescriptorElement := list_to_set new_negatives in
  let un_positives : gset DescriptorElement := list_to_set un_positives in
  let un_negatives : gset DescriptorElement := list_to_set un_negatives in
  with_lock (
    pos_before ← load positive_descriptors;
    mutate (upd_positive_descriptors (fun X => X ∪ new_positives));;
    mutate (upd_positive_descriptors (fun X => X ∖ un_positives));;
    mutate (upd_positive_descriptors (fun X => X ∖ new_negatives));;
    pos_after ← load positive_descriptors;
    let pos_changed := bool_decide (pos_before ≠ pos_after) in
    when pos_changed (mutate (upd_ordered_pos (fun _ => None)));;
    neg_before ← load negative_descriptors;
    mutate (upd_negative_descriptors (fun X => X ∪ new_negatives));;
    mutate (upd_negative_descriptors (fun X => X ∖ un_negatives));;
    mutate (upd_negative_descriptors (fun X => X ∖ new_positives));;
    neg_after ← load negative_descriptors;
    let neg_changed := bool_decide (neg_before ≠ neg_after) in
    when neg_changed (mutate (upd_ordered_neg (fun _ => None)));;
    when (pos_changed || neg_changed)
      (mutate (upd_ordered_non_adj (fun _ => None)))).

(** ** Growing the working set *)

Definition no_positive_descriptors : exn :=
  RuntimeError "No positive descriptors to query the neighbor index with.".

(** One turn of the loop over the positive examples: a seed whose key was
    not used yet is sent to the index, its neighbours go into the working
    set and its key is recorded. *)
Definition query_seed (nn_index : NearestNeighborsIndex)
    (p : DescriptorElement) : Op unit :=
  seeds ← load _wi_seeds_used;
  if decide (uuid p ∈ seeds) then mret tt
  else
    n ← load pos_seed_neighbors;
    neighbors ← lift (call_result "nn_index" (nn_index p n));
    mutate (upd_working_set (add_many_descriptors neighbors));;
    mutate (upd_wi_seeds_used (fun X => X ∪ {[uuid p]})).

Definition update_working_set (nn_index : NearestNeighborsIndex) : Op unit :=
  ext ← load external_positive_descriptors;
  pos ← load positive_descriptors;
  let pos_examples := ext ∪ pos in
  if decide (size pos_examples = 0) then raise no_positive_descriptors
  else for_each (elements pos_examples) (query_seed nn_index).

(** ** Refinement *)

Definition no_positive_adjudication : exn :=
  RuntimeError "Did not find at least one positive adjudication.".

Definition nothing_to_unpack : exn :=
  ValueError "not enough values to unpack (expected 2, got 0)".

Definition refine : Op unit :=
  with_lock (
    p ← load positive_descriptors;
    ep ← load external_positive_descriptors;
    let pos := vector <$> elements (p ∪ ep) in
    n ← load negative_descriptors;
    en ← load external_negative_descriptors;
    let neg := vector <$> elements (n ∪ en) in
    if decide (pos = []) then raise no_positive_adjudication
    else
      ws ← load working_set;
      match unzip_items ws with
      | None => raise nothing_to_unpack
      | Some (pool_uids, pool_de) =>
          let pool := vector <$> pool_de in
          rank ← load rank_relevancy_with_feedback;
          ranking ← lift (call_result "rank_relevancy_with_feedback"
                            (rank pos neg pool pool_uids));
          let probabilities := ranking.1 in
          let feedback_uuids := ranking.2 in
          ws ← load working_set;
          mutate (upd_results (fun _ =>
            Some (dict_of_pairs (zip (iterdescriptors ws) probabilities))));;
          ws ← load working_set;
          feedback ← lift (get_many_descriptors feedback_uuids ws);
          mutate (upd_feedback_list (fun _ => Some feedback));;
          p ← load positive_descriptors;
          mutate (upd_rank_contrib_pos (fun _ => p));;
          ep ← load external_positive_descriptors;
          mutate (upd_rank_contrib_pos_ext (fun _ => ep));;
          n ← load negative_descriptors;
          mutate (upd_rank_contrib_neg (fun _ => n));;
          en ← load external_negative_descriptors;
          mutate (upd_rank_contrib_neg_ext (fun _ => en));;
          mutate (upd_ordered_results (fun _ => None));;
          mutate (upd_ordered_pos (fun _ => None));;
          mutate (upd_ordered_neg (fun _ => None));;
          mutate (upd_ordered_non_adj (fun _ => None))
      end).

(** ** Ordered views *)

Definition ordered_results : Op (list (DescriptorElement * Q)) :=
  with_lock (
    cache ← load _ordered_results;
    match cache with
    | Some r => mret r
    | None =>
        res ← load results;
        match res with
        | None => mret []
        | Some result_items =>
            let r := sorted_by_score_reverse result_items in
            mutate (upd_ordered_results (fun _ => Some r));;
            mret r
        end
    end).

Definition feedback_invalid : exn :=
  RuntimeError "Feedback results in an invalid state.".

Definition feedback_results : Op (list DescriptorElement) :=
  r ← with_lock (
    fb ← load feedback_list;
    match fb with
    | Some l => mret (Some l)
    | None =>
        fb' ← load feedback_list;
        match fb' with
        | None => mret (Some [])
        | Some _ => mret None
        end
    end);
  match r with
  | Some l => mret l
  | None => raise feedback_invalid
  end.

Definition get_positive_adjudication_relevancy
    : Op (list (DescriptorElement * Q)) :=
  with_lock (
    cache ← load _ordered_pos;
    match cache with
    | Some r => mret r
    | None =>
        cp ← load rank_contrib_pos;
        cpe ← load rank_contrib_pos_ext;
        let rank_contrib_pos := cp ∪ cpe in
        rows ← ordered_results;
        let r := filter (fun t => t.1 ∈ rank_contrib_pos) rows in
        mutate (upd_ordered_pos (fun _ => Some r));;
        mret r
    end).

Definition get_negative_adjudication_relevancy
    : Op (list (DescriptorElement * Q)) :=
  with_lock (
    cache ← load _ordered_neg;
    match cache with
    | Some r => mret r
    | None =>
        cn ← load rank_contrib_neg;
        cne ← load rank_contrib_neg_ext;
        let rank_contrib_neg := cn ∪ cne in
        rows ← ordered_results;
        let r := filter (fun t => t.1 ∈ rank_contrib_neg) rows in
        mutate (upd_ordered_neg (fun _ => Some r));;
        mret r
    end).

Definition get_unadjudicated_relevancy
    : Op (list (DescriptorElement * Q)) :=
  with_lock (
    cache ← load _ordered_non_adj;
    match cache with
    | Some r => mret r
    | None =>
        cp ← load rank_contrib_pos;
        cpe ← load rank_contrib_pos_ext;
        cn ← load rank_contrib_neg;
        cne ← load rank_contrib_neg_ext;
        let pos_and_neg := cp ∪ cpe ∪ cn ∪ cne in
        rows ← ordered_results;
        let r := filter (fun t => t.1 ∉ pos_and_neg) rows in
        mutate (upd_ordered_non_adj (fun _ => Some r));;
        mret r
    end).

(** ** Reset *)

Definition reset : Op unit :=
  with_lock (
    mutate (upd_working_set (fun _ => []));;
    mutate (upd_wi_seeds_used (fun _ => ∅));;
    mutate (upd_positive_descriptors (fun _ => ∅));;
    mutate (upd_negative_descriptors (fun _ => ∅));;
    mutate (upd_external_positive_descriptors (fun _ => ∅));;
    mutate (upd_external_negative_descriptors (fun _ => ∅));;
    mutate (upd_rank_contrib_pos (fun _ => ∅));;
    mutate (upd_rank_contrib_pos_ext (fun _ => ∅));;
    mutate (upd_rank_contrib_neg (fun _ => ∅));;
    mutate (upd_rank_contrib_neg_ext (fun _ => ∅));;
    mutate (upd_results (fun _ => None));;
    mutate (upd_feedback_list (fun _ => None));;
    mutate (upd_ordered_results (fun _ => None));;
    mutate (upd_ordered_pos (fun _ => None));;
    mutate (upd_ordered_neg (fun _ => None));;
    mutate (upd_ordered_non_adj (fun _ => None))).

(** ** State codec *)

(** The JSON document of a saved state: an object whose members are lists
    of [[key, [f0, f1, ...]]] entries. *)
Definition IqrState := list (string * list (string * list Q)).

(** [state[name]] *)
Definition state_item (state : IqrState) (name : string)
    : Result (list (string * list Q)) :=
  match dict_get name state with
  | Some entries => Ok entries
  | None => Raised (KeyError name)
  end.

(** What the session uses of [zipfile] and [json]: writing a one-entry
    archive, listing and reading the entries of an archive, and printing
    and parsing the state document.  Reading gives [None] where the
    library raises.  The texts are those of state documents: a text that
    parses to a value of another shape, on which the code resets the
    session and only then raises, and the time stamp that [zipfile]
    writes into an archive are not represented. *)
Class StateArchive := {
  bytes : Type;
  json_text : Type;
  zip_writestr : string -> json_text -> bytes;
  zip_namelist : bytes -> option (list string);
  zip_read : bytes -> string -> option json_text;
  json_dumps : IqrState -> json_text;
  json_loads : json_text -> option IqrState;
  zip_namelist_writestr name text :
    zip_namelist (zip_writestr name text) = Some [name];
  zip_read_writestr name text :
    zip_read (zip_writestr name text) name = Some text;
  json_loads_dumps st : json_loads (json_dumps st) = Some st
}.

Definition STATE_ZIP_FILENAME : string := "iqr_state.json".

Definition no_tolist : exn :=
  AttributeError "'NoneType' object has no attribute 'tolist'".

Fixpoint d_list_to_list (ds : list DescriptorElement)
    : Result (list (string * list Q)) :=
  match ds with
  | [] => Ok []
  | d :: ds' =>
      match vector d with
      | None => Raised no_tolist
      | Some v =>
          match d_list_to_list ds' with
          | Ok l => Ok ((uuid d, v) :: l)
          | Raised e => Raised e
          end
      end
  end.

(** The entries of a set, listed in the order of [elements]; the order
    in which Python iterates a set is its own, so nothing is stated
    about the order of the entries of two exports. *)
Definition d_set_to_list (d_set : gset DescriptorElement)
    : Result (list (string * list Q)) :=
  d_list_to_list (elements d_set).

Definition vectors_mismatch : exn :=
  AssertionError
    "Found existing vector for UUID '%s' but vectors did not match.".

Definition load_descriptor (descriptor_factory : DescriptorElementFactory)
    (_uid : string) (vec_list : list Q) : Result DescriptorElement :=
  let _e := descriptor_factory _uid in
  match vector _e with
  | Some v =>
      if decide (v = vec_list) then Ok _e else Raised vectors_mismatch
  | None => Ok (set_vector _e vec_list)
  end.

Definition invalid_bytes : exn :=
  ValueError
    "Invalid bytes given, did not contain expected zipped file name.".

(** The inner loop of [set_state_bytes]: every entry of [source] becomes a
    descriptor that is added to the set behind [target]. *)
Definition load_entries (descriptor_factory : DescriptorElementFactory)
    (source : list (string * list Q))
    (target : (gset DescriptorElement -> gset DescriptorElement) ->
              IqrSession -> IqrSession) : Op unit :=
  for_each source (fun entry =>
    e ← lift (load_descriptor descriptor_factory entry.1 entry.2);
    mutate (target (fun X => X ∪ {[e]}))).

(** The loop of [set_state_bytes] over the four lists of the document,
    each paired with the set it fills.  The four lists are looked up
    before the loop starts. *)
Definition load_state (descriptor_factory : DescriptorElementFactory)
    (state : IqrState) : Op unit :=
  external_pos ← lift (state_item state "external_pos");
  external_neg ← lift (state_item state "external_neg");
  pos ← lift (state_item state "pos");
  neg ← lift (state_item state "neg");
  for_each
    [ (external_pos, upd_external_positive_descriptors);
      (external_neg, upd_external_negative_descriptors);
      (pos, upd_positive_descriptors);
      (neg, upd_negative_descriptors) ]
    (fun st => load_entries descriptor_factory st.1 st.2).

Section Codec.
Context `{StateArchive}.

Definition get_state_bytes : Op bytes :=
  state ← with_lock (
    p ← load positive_descriptors;
    pos_d ← lift (d_set_to_list p);
    n ← load negative_descriptors;
    neg_d ← lift (d_set_to_list n);
    ep ← load external_positive_descriptors;
    ext_pos_d ← lift (d_set_to_list ep);
    en ← load external_negative_descriptors;
    ext_neg_d ← lift (d_set_to_list en);
    mret [ ("pos", pos_d); ("neg", neg_d);
           ("external_pos", ext_pos_d); ("external_neg", ext_neg_d) ]);
  mret (zip_writestr STATE_ZIP_FILENAME (json_dumps state)).

Definition set_state_bytes (b : bytes)
    (descriptor_factory : DescriptorElementFactory) : Op unit :=
  names ← lift (call_result "zipfile" (zip_namelist b));
  if decide (STATE_ZIP_FILENAME ∈ names) then
    text ← lift (call_result "zipfile" (zip_read b STATE_ZIP_FILENAME));
    state ← lift (call_result "json" (json_loads text));
    with_lock (reset;; load_state descriptor_factory state)
  else raise invalid_bytes.

(** ** Calls of the public interface *)

Inductive Call :=
| CallExternalDescriptors (positive negative : list DescriptorElement)
| CallAdjudicate (new_positives new_negatives un_positives un_negatives
                    : list DescriptorElement)
| CallUpdateWorkingSet (nn_index : NearestNeighborsIndex)
| CallRefine
| CallOrderedResults
| CallFeedbackResults
| CallPositiveRelevancy
| CallNegativeRelevancy
| CallUnadjudicatedRelevancy
| CallReset
| CallGetStateBytes
| CallSetStateBytes (b : bytes) (factory : DescriptorElementFactory).

(** The session after a call, whether the call returned or raised. *)
Definition perform (c : Call) (s : IqrSession) : IqrSession :=
  match c with
  | CallExternalDescriptors p n => state_of (external_descriptors p n s)
  | CallAdjudicate np nn up un => state_of (adjudicate np nn up un s)
  | CallUpdateWorkingSet nn_index => state_of (update_working_set nn_index s)
  | CallRefine => state_of (refine s)
  | CallOrderedResults => state_of (ordered_results s)
  | CallFeedbackResults => state_of (feedback_results s)
  | CallPositiveRelevancy =>
      state_of (get_positive_adjudication_relevancy s)
  | CallNegativeRelevancy =>
      state_of (get_negative_adjudication_relevancy s)
  | CallUnadjudicatedRelevancy => state_of (get_unadjudicated_relevancy s)
  | CallReset => state_of (reset s)
  | CallGetStateBytes => state_of (get_state_bytes s)
  | CallSetStateBytes b factory => state_of (set_state_bytes b factory s)
  end.

Definition perform_all (calls : list Call) (s : IqrSession) : IqrSession :=
  foldl (fun s c => perform c s) s calls.

(** The calls that leave the ranking of the last refinement in place:
    all but [refine], [reset] and [set_state_bytes] (which resets). *)
Definition keeps_ranking (c : Call) : bool :=
  match c with
  | CallRefine | CallReset | CallSetStateBytes _ _ => false
  | _ => true
  end.
End Codec.

(** Sequences of adjudications. *)
Inductive Adjudication :=
| Adjudicate (new_positives new_negatives un_positives un_negatives
                : list DescriptorElement)
| SetExternal (positive negative : list DescriptorElement).

Definition adjudication_step (s : IqrSession) (a : Adjudication)
    : IqrSession :=
  match a with
  | Adjudicate np nn up un => state_of (adjudicate np nn up un s)
  | SetExternal p n => state_of (external_descriptors p n s)
  end.

(** Repeated growth of the working set. *)
Definition grow_all (indexes : list NearestNeighborsIndex) (s : IqrSession)
    : IqrSession :=
  foldl (fun s nn_index => state_of (update_working_set nn_index s))
        s indexes.

(** The ranker keeps its contract when its shortlist is made of keys of
    the pool it was given. *)
Definition shortlist_in_pool (rank : RankRelevancyWithFeedback) : Prop :=
  forall pos neg pool pool_uids ranking,
    rank pos neg pool pool_uids = Some ranking ->
    forall u, u ∈ ranking.2 -> u ∈ pool_uids.

(** An archive kept as its single named entry, and a document kept as
    itself: the smallest [StateArchive]. *)
Definition entry_archive : StateArchive.
Proof.
  refine {| bytes := string * IqrState;
            json_text := IqrState;
            zip_writestr := fun name text => (name, text);
            zip_namelist := fun b => Some [b.1];
            zip_read := fun b name =>
              if decide (name = b.1) then Some b.2 else None;
            json_dumps := fun st => st;
            json_loads := fun text => Some text |}.
  - reflexivity.
  - intros name text. simpl. by rewrite decide_True.
  - reflexivity.
Defined.

(** Whether hold counts of a trace are all positive where an attribute is
    touched. *)
Definition guarded (t : list Event) : Prop :=
  Forall (fun e => match e with Access 0 => False | _ => True end) t.

(** What [ordered_results] has to return for the current [results]. *)
Definition by_descending_score (a b : DescriptorElement * Q) : Prop :=
  (b.2 <= a.2)%Q.

Definition ordered_view_of (items : option (list (DescriptorElement * Q)))
    (rows : list (DescriptorElement * Q)) : Prop :=
  match items with
  | None => rows = []
  | Some items =>
      Permutation items rows ∧
      StronglySorted by_descending_score rows ∧
      forall q, List.filter (fun t => Qeq_bool t.2 q) rows =
                List.filter (fun t => Qeq_bool t.2 q) items
  end.

Definition adjudications_disjoint (s : IqrSession) : Prop :=
  positive_descriptors s ## negative_descriptors s ∧
  external_positive_descriptors s ## external_negative_descriptors s.

(** What the index failing looks like to the caller of
    [update_working_set]. *)
Definition nn_failed : exn := CollaboratorError "nn_index".

(** The rows of the last ranking, best first. *)
Definition ranked_rows (s : IqrSession) : list (DescriptorElement * Q) :=
  match results s with
  | None => []
  | Some items => sorted_by_score_reverse items
  end.

(** Every cached view that is present is the view of the current results
    and contributing sets. *)
Definition views_coherent (s : IqrSession) : Prop :=
  (forall r, _ordered_results s = Some r ->
             is_Some (results s) ∧ r = ranked_rows s) ∧
  (forall r, _ordered_pos s = Some r ->
     r = filter (fun t => t.1 ∈ rank_contrib_pos s ∪ rank_contrib_pos_ext s)
           (ranked_rows s)) ∧
  (forall r, _ordered_neg s = Some r ->
     r = filter (fun t => t.1 ∈ rank_contrib_neg s ∪ rank_contrib_neg_ext s)
           (ranked_rows s)) ∧
  (forall r, _ordered_non_adj s = Some r ->
     r = filter (fun t => t.1 ∉ rank_contrib_pos s ∪ rank_contrib_pos_ext s
                                ∪ rank_contrib_neg s
                                ∪ rank_contrib_neg_ext s)
           (ranked_rows s)).

(** [s'] is [s] but for the four adjudication sets. *)
Definition same_but_adjudications (s s' : IqrSession) : Prop :=
  s' = upd_negative_descriptors (fun _ => negative_descriptors s')
         (upd_positive_descriptors (fun _ => positive_descriptors s')
           (upd_external_negative_descriptors
              (fun _ => external_negative_descriptors s')
              (upd_external_positive_descriptors
                 (fun _ => external_positive_descriptors s') s))).

Definition current_rows (s : IqrSession) : list (DescriptorElement * Q) :=
  match _ordered_results s with
  | Some r => r
  | None => ranked_rows s
  end.

Definition adjudication_target
    (target : (gset DescriptorElement -> gset DescriptorElement) ->
              IqrSession -> IqrSession) : Prop :=
  forall f s, same_but_adjudications s (target f s).

(** The part of a session that the ordered views are computed from. *)
Definition same_ranking (s s' : IqrSession) : Prop :=
  results s' = results s ∧
  rank_contrib_pos s' = rank_contrib_pos s ∧
  rank_contrib_pos_ext s' = rank_contrib_pos_ext s ∧
  rank_contrib_neg s' = rank_contrib_neg s ∧
  rank_contrib_neg_ext s' = rank_contrib_neg_ext s.

(** The entry that [d_set_to_list] writes for a descriptor with a vector. *)
Definition entry_of (d : DescriptorElement) : string * list Q :=
  (uuid d, default [] (vector d)).

(** The descriptors in any of the four adjudication sets. *)
Definition adjudicated (s : IqrSession) : gset DescriptorElement :=
  positive_descriptors s ∪ negative_descriptors s
  ∪ external_positive_descriptors s ∪ external_negative_descriptors s.

(** The factory gives, for the key of [d], an element with that key and
    either no vector yet or the vector of [d]. *)
Definition reproduces (factory : DescriptorElementFactory)
    (d : DescriptorElement) : Prop :=
  uuid (factory (uuid d)) = uuid d ∧
  (vector (factory (uuid d)) = None ∨
   vector (factory (uuid d)) = vector d).

(** The document written for a session. *)
Definition state_document (s : IqrSession) : IqrState :=
  [ ("pos", entry_of <$> elements (positive_descriptors s));
    ("neg", entry_of <$> elements (negative_descriptors s));
    ("external_pos",
     entry_of <$> elements (external_positive_descriptors s));
    ("external_neg",
     entry_of <$> elements (external_negative_descriptors s)) ].

(** A computation that, started with the lock held, touches the session
    only with the lock held and ends with the same hold count. *)
Definition keeps_hold {A} (m : Op A) : Prop :=
  forall s, 0 < lock s ->
    guarded (trace_of (m s)) ∧ lock (state_of (m s)) = lock s.

(** A computation that, from any hold count, touches the session only
    with the lock held and ends with the hold count it started with. *)
Definition self_locking {A} (m : Op A) : Prop :=
  forall s, guarded (trace_of (m s)) ∧ lock (state_of (m s)) = lock s.

Section CallEvents.
Context `{StateArchive}.

Definition call_events (c : Call) (s : IqrSession) : list Event :=
  match c with
  | CallExternalDescriptors p n => trace_of (external_descriptors p n s)
  | CallAdjudicate np nn up un => trace_of (adjudicate np nn up un s)
  | CallUpdateWorkingSet nn_index => trace_of (update_working_set nn_index s)
  | CallRefine => trace_of (refine s)
  | CallOrderedResults => trace_of (ordered_results s)
  | CallFeedbackResults => trace_of (feedback_results s)
  | CallPositiveRelevancy =>
      trace_of (get_positive_adjudication_relevancy s)
  | CallNegativeRelevancy =>
      trace_of (get_negative_adjudication_relevancy s)
  | CallUnadjudicatedRelevancy => trace_of (get_unadjudicated_relevancy s)
  | CallReset => trace_of (reset s)
  | CallGetStateBytes => trace_of (get_state_bytes s)
  | CallSetStateBytes b factory => trace_of (set_state_bytes b factory s)
  end.
End CallEvents.

(** ** A small session to run the calls on

    Two positive examples [P1] and [P2] whose neighbours in the index are
    [A; B] and [B; C], two neighbours asked for per seed, and a ranker that
    scores the pool 0.9, 0.5, 0.1 in its order and proposes nothing. *)

Definition descriptor (key : string) : DescriptorElement :=
  {| uuid := key; vector := Some [1%Q] |}.

Definition example_index : NearestNeighborsIndex :=
  fun d _ =>
    if decide (uuid d = "P1") then Some [descriptor "A"; descriptor "B"]
    else if decide (uuid d = "P2") then Some [descriptor "B"; descriptor "C"]
    else None.

Definition example_ranker : RankRelevancyWithFeedback :=
  fun _ _ _ _ => Some ([9 # 10; 5 # 10; 1 # 10]%Q, []).

Definition example_new : IqrSession :=
  new_session example_ranker 2 "session".

Definition example_adjudicated : IqrSession :=
  state_of (adjudicate [descriptor "P1"; descriptor "P2"] [] [] []
              example_new).

Definition example_grown : IqrSession :=
  state_of (update_working_set example_index example_adjudicated).

Definition example_factory : DescriptorElementFactory :=
  fun key => {| uuid := key; vector := None |}.

(** The invariant of the working set's table: no key twice, and every
    descriptor filed under its own key. *)
Definition table_well_keyed (t : MemoryDescriptorSet) : Prop :=
  NoDup t.*1 ∧ Forall (fun kv => kv.1 = uuid kv.2) t.

Section WorkingSetCalls.
Context `{StateArchive}.

(** The calls that do not empty the working set: all but [reset] and
    [set_state_bytes]. *)
Definition keeps_working_set (c : Call) : bool :=
  match c with
  | CallReset | CallSetStateBytes _ _ => false
  | _ => true
  end.
End WorkingSetCalls.

(** What the ranker is asked by [refine] on a session. *)
Definition ranking_of (s : IqrSession) : option (list Q * list string) :=
  rank_relevancy_with_feedback s
    (vector <$> elements (positive_descriptors s
                          ∪ external_positive_descriptors s))
    (vector <$> elements (negative_descriptors s
                          ∪ external_negative_descriptors s))
    (vector <$> (working_set s).*2)
    (working_set s).*1.

(** The factory's element for the key of an entry has no vector yet or
    has the vector of the entry: the assertion of [load_descriptor]
    holds. *)
Definition consistent (factory : DescriptorElementFactory)
    (entry : string * list Q) : Prop :=
  match vector (factory entry.1) with
  | Some v => v = entry.2
  | None => True
  end.

(** The descriptor that [load_descriptor] returns for a consistent
    entry. *)
Definition loaded (factory : DescriptorElementFactory)
    (entry : string * list Q) : DescriptorElement :=
  match vector (factory entry.1) with
  | Some _ => factory entry.1
  | None => set_vector (factory entry.1) entry.2
  end.

Section Parsing.
Context `{StateArchive}.

(** The document that [set_state_bytes] reads from the bytes before it
    takes the lock, if it gets that far. *)
Definition parsed_state (b : bytes) : option IqrState :=
  match zip_namelist b with
  | None => None
  | Some names =>
      if decide (STATE_ZIP_FILENAME ∈ names) then
        match zip_read b STATE_ZIP_FILENAME with
        | None => None
        | Some text => json_loads text
        end
      else None
  end.
End Parsing.

(** The four lists of a document, when it has all four members. *)
Definition has_members (state : IqrState)
    (ep en p n : list (string * list Q)) : Prop :=
  state_item state "external_pos" = Ok ep ∧
  state_item state "external_neg" = Ok en ∧
  state_item state "pos" = Ok p ∧
  state_item state "neg" = Ok n.

(** A session whose only positive example is unknown to the index. *)
Definition example_unindexed : IqrSession :=
  state_of (adjudicate [descriptor "Z"] [] [] [] example_new).

(** A ranker whose shortlist names a key outside the pool. *)
Definition example_stray_ranker : RankRelevancyWithFeedback :=
  fun _ _ _ _ => Some ([9 # 10; 5 # 10; 1 # 10]%Q, ["Q"]).

Definition example_stray : IqrSession :=
  state_of (update_working_set example_index
    (state_of (adjudicate [descriptor "P1"; descriptor "P2"] [] [] []
                 (new_session example_stray_ranker 2 "session")))).

(** A ranker that recommends two rows of the pool, worst first. *)
Definition example_feedback_ranker : RankRelevancyWithFeedback :=
  fun _ _ _ _ => Some ([9 # 10; 5 # 10; 1 # 10]%Q, ["C"; "A"]).

Definition example_feedback : IqrSession :=
  state_of (update_working_set example_index
    (state_of (adjudicate [descriptor "P1"; descriptor "P2"] [] [] []
                 (new_session example_feedback_ranker 2 "session")))).

(** A state document that lists one entry as positive and as negative. *)
Definition example_document : IqrState :=
  [ ("pos", [("D", [1%Q])]); ("neg", [("D", [1%Q])]);
    ("external_pos", [("E", [1%Q])]); ("external_neg", []) ].

Definition example_bytes : bytes (StateArchive := entry_archive) :=
  ("iqr_state.json", example_document).



(** * Properties *)

(** Sessions given by their attributes are compared attribute by
    attribute. *)
Ltac session_eq :=
  cbv beta iota delta
    [upd_lock upd_working_set upd_wi_seeds_used
     upd_external_positive_descriptors upd_external_negative_descriptors
     upd_positive_descriptors upd_negative_descriptors
     upd_rank_contrib_pos upd_rank_contrib_pos_ext
     upd_rank_contrib_neg upd_rank_contrib_neg_ext
     upd_results upd_feedback_list
     upd_ordered_results upd_ordered_pos upd_ordered_neg upd_ordered_non_adj
     session_uid lock pos_seed_neighbors working_set _wi_seeds_used
     external_positive_descriptors external_negative_descriptors
     positive_descriptors negative_descriptors
     rank_contrib_pos rank_contrib_pos_ext
     rank_contrib_neg rank_contrib_neg_ext
     results feedback_list
     _ordered_results _ordered_pos _ordered_neg _ordered_non_adj
     rank_relevancy_with_feedback Nat.pred] in *;
  repeat match goal with
         | H : Build_IqrSession _ _ _ _ _ _ _ _ _ _ _ _ _ _ _ _ _ _ _ _ = _
           |- _ => injection H; clear H; intros
         end;
  subst; try done.

Ltac op_unfold :=
  unfold with_lock, mbind, Op_bind, mret, Op_ret, load, mutate, when, raise,
    lift in *.

(** ** Sessions and computations *)

Lemma lock_released (s : IqrSession) : upd_lock Nat.pred (upd_lock S s) = s.
Proof. by destruct s. Qed.

Lemma for_each_cons {X} (x : X) (l : list X) (body : X -> Op unit) s :
  for_each (x :: l) body s =
  match body x s with
  | (Ok _, s1, t1) =>
      match for_each l body s1 with (r, s2, t2) => (r, s2, t1 ++ t2) end
  | (Raised e, s1, t1) => (Raised e, s1, t1)
  end.
Proof. reflexivity. Qed.

(** ** The adjudication sets *)

Lemma external_descriptors_state positive negative s :
  state_of (external_descriptors positive negative s) =
  upd_external_negative_descriptors
    (fun X => (X ∪ list_to_set negative) ∖ list_to_set positive)
    (upd_external_positive_descriptors
       (fun X => (X ∪ list_to_set positive) ∖ list_to_set negative) s).
Proof. by destruct s. Qed.

Lemma external_descriptors_returns positive negative s :
  result_of (external_descriptors positive negative s) = Ok tt.
Proof. reflexivity. Qed.

Lemma adjudicate_state np nn up un s :
  exists b1 b2 b3 : bool,
    state_of (adjudicate np nn up un s) =
    upd_ordered_non_adj (fun c => if b3 then None else c)
      (upd_ordered_neg (fun c => if b2 then None else c)
        (upd_ordered_pos (fun c => if b1 then None else c)
          (upd_negative_descriptors
             (fun X => ((X ∪ list_to_set nn) ∖ list_to_set un)
                       ∖ list_to_set np)
             (upd_positive_descriptors
                (fun X => ((X ∪ list_to_set np) ∖ list_to_set up)
                          ∖ list_to_set nn) s)))).
Proof.
  unfold adjudicate. op_unfold. destruct s; cbn.
  repeat (case_bool_decide; cbn).
  - by exists true, true, true.
  - by exists true, false, true.
  - by exists false, true, true.
  - by exists false, false, false.
Qed.

Lemma adjudicate_returns np nn up un s :
  result_of (adjudicate np nn up un s) = Ok tt.
Proof.
  unfold adjudicate. op_unfold. cbn.
  repeat (case_bool_decide; cbn); reflexivity.
Qed.

Lemma adjudication_step_disjoint s a :
  adjudications_disjoint s -> adjudications_disjoint (adjudication_step s a).
Proof.
  intros [Hp He]. destruct a as [np nn up un | p n]; simpl.
  - destruct (adjudicate_state np nn up un s) as (b1 & b2 & b3 & ->).
    split; cbn; [set_solver | done].
  - rewrite external_descriptors_state. split; cbn; [done | set_solver].
Qed.

Lemma new_session_disjoint rank k uid :
  adjudications_disjoint (new_session rank k uid).
Proof. split; cbn; set_solver. Qed.

Lemma reset_state s :
  state_of (reset s) =
  {| session_uid := session_uid s;
     lock := lock s;
     pos_seed_neighbors := pos_seed_neighbors s;
     working_set := [];
     _wi_seeds_used := ∅;
     external_positive_descriptors := ∅;
     external_negative_descriptors := ∅;
     positive_descriptors := ∅;
     negative_descriptors := ∅;
     rank_contrib_pos := ∅;
     rank_contrib_pos_ext := ∅;
     rank_contrib_neg := ∅;
     rank_contrib_neg_ext := ∅;
     results := None;
     feedback_list := None;
     _ordered_results := None;
     _ordered_pos := None;
     _ordered_neg := None;
     _ordered_non_adj := None;
     rank_relevancy_with_feedback := rank_relevancy_with_feedback s |}.
Proof. by destruct s. Qed.

Lemma reset_disjoint s : adjudications_disjoint (state_of (reset s)).
Proof. rewrite reset_state. split; cbn; set_solver. Qed.

Lemma adjudications_keep_disjoint (calls : list Adjudication) s :
  adjudications_disjoint s ->
  adjudications_disjoint (foldl adjudication_step s calls).
Proof.
  revert s. induction calls as [| a calls IH]; intros s Hs; [done |].
  simpl. apply IH. by apply adjudication_step_disjoint.
Qed.

(** C1.  From a new session, and from a session that was just reset, the
    positive and negative sets are disjoint and the external positive and
    external negative sets are disjoint after every call of a sequence of
    [adjudicate] and [external_descriptors] calls: the property holds
    after the first [n] calls, for every [n]. *)
Theorem adjudication_sets_stay_disjoint :
  (forall rank k uid (calls : list Adjudication) (n : nat),
     adjudications_disjoint
       (foldl adjudication_step (new_session rank k uid) (take n calls))) ∧
  (forall s (calls : list Adjudication) (n : nat),
     adjudications_disjoint
       (foldl adjudication_step (state_of (reset s)) (take n calls))).
Proof.
  split; intros.
  - apply adjudications_keep_disjoint, new_session_disjoint.
  - apply adjudications_keep_disjoint, reset_disjoint.
Qed.

(** C5.  A descriptor listed both as a new positive and as a new negative
    of one [adjudicate] call is in neither the positive nor the negative
    set after the call. *)
Theorem adjudicate_cancels_overlap np nn up un d s :
  d ∈ np -> d ∈ nn ->
  (d ∉ positive_descriptors (state_of (adjudicate np nn up un s))) ∧
  (d ∉ negative_descriptors (state_of (adjudicate np nn up un s))).
Proof.
  intros Hp Hn.
  destruct (adjudicate_state np nn up un s) as (b1 & b2 & b3 & ->).
  cbn. set_solver.
Qed.

(** C3, as the session behaves.  A descriptor given both as positive and as
    negative to one [external_descriptors] call is in neither external set
    after the call, and the call returns without raising. *)
Theorem external_descriptors_cancels_overlap positive negative d s :
  d ∈ positive -> d ∈ negative ->
  (d ∉ external_positive_descriptors
         (state_of (external_descriptors positive negative s))) ∧
  (d ∉ external_negative_descriptors
         (state_of (external_descriptors positive negative s))) ∧
  result_of (external_descriptors positive negative s) = Ok tt.
Proof.
  intros Hp Hn. rewrite external_descriptors_state. cbn.
  split_and!; [set_solver | set_solver | done].
Qed.

(** ** Growing the working set *)

Lemma dict_set_length {V} (k : string) (v : V) (d : list (string * V)) :
  length d <= length (dict_set k v d).
Proof.
  induction d as [| [k' v'] d IH]; simpl; [lia |].
  destruct (decide (k = k')); simpl; lia.
Qed.

Lemma add_many_descriptors_length ds t :
  length t <= length (add_many_descriptors ds t).
Proof.
  unfold add_many_descriptors. revert t.
  induction ds as [| d ds IH]; intros t; simpl; [lia |].
  etrans; [| apply IH]. apply dict_set_length.
Qed.

Lemma query_seed_cases nn_index p s :
  (uuid p ∈ _wi_seeds_used s ∧
   query_seed nn_index p s = (Ok tt, s, [Access (lock s)])) ∨
  ((uuid p ∉ _wi_seeds_used s) ∧
   nn_index p (pos_seed_neighbors s) = None ∧
   query_seed nn_index p s =
     (Raised nn_failed, s, [Access (lock s); Access (lock s)])) ∨
  ((uuid p ∉ _wi_seeds_used s) ∧
   exists neighbors,
     nn_index p (pos_seed_neighbors s) = Some neighbors ∧
     query_seed nn_index p s =
       (Ok tt,
        upd_wi_seeds_used (fun X => X ∪ {[uuid p]})
          (upd_working_set (add_many_descriptors neighbors) s),
        [Access (lock s); Access (lock s); Access (lock s);
         Access (lock s)])).
Proof.
  unfold query_seed. op_unfold. cbn.
  destruct (decide (uuid p ∈ _wi_seeds_used s)) as [Hin | Hout]; cbn.
  - by left.
  - right. destruct (nn_index p (pos_seed_neighbors s)) as [ns |] eqn:Hnn;
      cbn.
    + right. split; [done |]. by exists ns.
    + by left.
Qed.

(** The loop of [update_working_set] from a session [s]: what it returns
    and what it leaves behind. *)
Lemma grow_loop_spec nn_index l s :
  exists W X,
    state_of (for_each l (query_seed nn_index) s) =
      upd_wi_seeds_used (fun _ => X) (upd_working_set (fun _ => W) s) ∧
    _wi_seeds_used s ⊆ X ∧
    length (working_set s) <= length W ∧
    Forall (fun e => e = Access (lock s))
      (trace_of (for_each l (query_seed nn_index) s)) ∧
    ((result_of (for_each l (query_seed nn_index) s) = Ok tt ∧
      forall p, p ∈ l -> uuid p ∈ X) ∨
     (result_of (for_each l (query_seed nn_index) s) = Raised nn_failed ∧
      exists l1 p l2,
        l = l1 ++ p :: l2 ∧ (forall q, q ∈ l1 -> uuid q ∈ X) ∧
        (uuid p ∉ X) ∧ nn_index p (pos_seed_neighbors s) = None)).
Proof.
  revert s. induction l as [| p l IH]; intros s.
  - exists (working_set s), (_wi_seeds_used s). cbn.
    split_and!; [by destruct s | done | done | constructor |].
    left. split; [done |]. intros p Hp. by apply elem_of_nil in Hp.
  - rewrite for_each_cons.
    destruct (query_seed_cases nn_index p s)
      as [[Hin ->] | [(Hout & Hnn & ->) | (Hout & ns & Hnn & ->)]].
    + destruct (IH s) as (W & X & Hst & Hsub & Hlen & Htr & Hres).
      destruct (for_each l (query_seed nn_index) s) as [[r s2] t2].
      cbn in *. exists W, X. split_and!; try done.
      { by constructor. }
      destruct Hres as [[-> Hall] | [-> (l1 & q & l2 & -> & Hl1 & Hq & Hf)]].
      * left. split; [done |]. intros p' [-> | Hp']%elem_of_cons; set_solver.
      * right. split; [done |]. exists (p :: l1), q, l2.
        split_and!; try done.
        intros q' [-> | Hq']%elem_of_cons; set_solver.
    + exists (working_set s), (_wi_seeds_used s). cbn.
      split_and!; [by destruct s | done | done | by repeat constructor |].
      right. split; [done |]. exists [], p, l.
      split_and!; try done. intros q Hq. by apply elem_of_nil in Hq.
    + set (s1 := upd_wi_seeds_used _ _).
      destruct (IH s1) as (W & X & Hst & Hsub & Hlen & Htr & Hres).
      destruct (for_each l (query_seed nn_index) s1) as [[r s2] t2].
      cbn in *. exists W, X. split_and!.
      * rewrite Hst. by destruct s.
      * set_solver.
      * etrans; [apply add_many_descriptors_length | exact Hlen].
      * repeat constructor. exact Htr.
      * destruct Hres
          as [[-> Hall] | [-> (l1 & q & l2 & -> & Hl1 & Hq & Hf)]].
        -- left. split; [done |].
           intros p' [-> | Hp']%elem_of_cons; set_solver.
        -- right. split; [done |]. exists (p :: l1), q, l2.
           split_and!; try done.
           intros q' [-> | Hq']%elem_of_cons; set_solver.
Qed.

Lemma grow_loop_skips nn_index l s :
  (forall p, p ∈ l -> uuid p ∈ _wi_seeds_used s) ->
  result_of (for_each l (query_seed nn_index) s) = Ok tt ∧
  state_of (for_each l (query_seed nn_index) s) = s.
Proof.
  induction l as [| p l IH]; intros Hall; [done |].
  rewrite for_each_cons.
  destruct (query_seed_cases nn_index p s)
    as [[Hin ->] | [(Hout & _) | (Hout & _)]].
  - destruct IH as [Hr Hs]; [set_solver |].
    destruct (for_each l (query_seed nn_index) s) as [[r s2] t2].
    by cbn in *; subst.
  - exfalso. apply Hout, Hall. set_solver.
  - exfalso. apply Hout, Hall. set_solver.
Qed.

Lemma grow_loop_fails_again nn_index l1 p l2 s :
  (forall q, q ∈ l1 -> uuid q ∈ _wi_seeds_used s) ->
  uuid p ∉ _wi_seeds_used s ->
  nn_index p (pos_seed_neighbors s) = None ->
  result_of (for_each (l1 ++ p :: l2) (query_seed nn_index) s)
    = Raised nn_failed ∧
  state_of (for_each (l1 ++ p :: l2) (query_seed nn_index) s) = s.
Proof.
  intros Hl1 Hp Hnn. induction l1 as [| q l1 IH]; cbn [app].
  - rewrite for_each_cons.
    destruct (query_seed_cases nn_index p s)
      as [[Hin _] | [(_ & _ & ->) | (_ & ns & Hns & _)]];
      [done | done | congruence].
  - rewrite for_each_cons.
    destruct (query_seed_cases nn_index q s)
      as [[Hin ->] | [(Hout & _) | (Hout & _)]].
    + destruct IH as [Hr Hs]; [set_solver |].
      destruct (for_each (l1 ++ p :: l2) (query_seed nn_index) s)
        as [[r s2] t2].
      by cbn in *; subst.
    + exfalso. apply Hout, Hl1. set_solver.
    + exfalso. apply Hout, Hl1. set_solver.
Qed.

Lemma update_working_set_cases nn_index s :
  let pos_examples :=
    external_positive_descriptors s ∪ positive_descriptors s in
  let r := for_each (elements pos_examples) (query_seed nn_index) s in
  (pos_examples = ∅ ∧
   update_working_set nn_index s =
     (Raised no_positive_descriptors, s,
      [Access (lock s); Access (lock s)])) ∨
  (pos_examples ≠ ∅ ∧
   update_working_set nn_index s =
     (result_of r, state_of r,
      Access (lock s) :: Access (lock s) :: trace_of r)).
Proof.
  intros pos_examples r. unfold update_working_set. op_unfold. cbn.
  fold pos_examples.
  destruct (decide (size pos_examples = 0)) as [Hz | Hnz]; cbn.
  - left. split; [| done]. by apply size_empty_iff, leibniz_equiv in Hz.
  - right. split.
    + intros He. apply Hnz. by rewrite He, size_empty.
    + fold r. by destruct r as [[[] ?] ?].
Qed.

Lemma update_working_set_spec nn_index s :
  exists W X,
    state_of (update_working_set nn_index s) =
      upd_wi_seeds_used (fun _ => X) (upd_working_set (fun _ => W) s) ∧
    _wi_seeds_used s ⊆ X ∧
    length (working_set s) <= length W ∧
    Forall (fun e => e = Access (lock s))
      (trace_of (update_working_set nn_index s)).
Proof.
  destruct (update_working_set_cases nn_index s) as [[_ ->] | [_ ->]].
  - exists (working_set s), (_wi_seeds_used s). cbn.
    split_and!; [by destruct s | done | done | by repeat constructor].
  - destruct (grow_loop_spec nn_index
                (elements (external_positive_descriptors s
                           ∪ positive_descriptors s)) s)
      as (W & X & Hst & Hsub & Hlen & Htr & _).
    exists W, X. cbn. split_and!; try done. by repeat constructor.
Qed.

(** C7.  [update_working_set] raises its "no positive descriptors" error
    exactly when the union of the positive and the external positive set
    is empty at the call, and the call that raises it leaves the working
    set and the used seeds as they were. *)
Theorem update_working_set_no_positive nn_index s :
  (result_of (update_working_set nn_index s)
     = Raised no_positive_descriptors
   <-> positive_descriptors s ∪ external_positive_descriptors s = ∅) ∧
  (result_of (update_working_set nn_index s)
     = Raised no_positive_descriptors ->
   working_set (state_of (update_working_set nn_index s)) = working_set s ∧
   _wi_seeds_used (state_of (update_working_set nn_index s))
     = _wi_seeds_used s).
Proof.
  assert (Hiff : result_of (update_working_set nn_index s)
                   = Raised no_positive_descriptors
                 <-> positive_descriptors s
                     ∪ external_positive_descriptors s = ∅).
  { destruct (update_working_set_cases nn_index s) as [[He ->] | [Hne ->]].
    - cbn. split; [| done]. intros _. set_solver.
    - cbn. split.
      + intros Hr.
        destruct (grow_loop_spec nn_index
                    (elements (external_positive_descriptors s
                               ∪ positive_descriptors s)) s)
          as (_ & _ & _ & _ & _ & _ & [[Hok _] | [Hf _]]);
          rewrite Hr in *; discriminate.
      + intros He. exfalso. apply Hne. set_solver. }
  split; [exact Hiff |].
  intros Hr. apply Hiff in Hr.
  destruct (update_working_set_cases nn_index s) as [[He ->] | [Hne _]].
  - done.
  - exfalso. apply Hne. set_solver.
Qed.

Lemma update_working_set_twice nn_index s :
  state_of (update_working_set nn_index
              (state_of (update_working_set nn_index s)))
  = state_of (update_working_set nn_index s).
Proof.
  destruct (update_working_set_cases nn_index s) as [[He Hs] | [Hne Hs]].
  - rewrite Hs. cbn. by rewrite Hs.
  - rewrite Hs. cbn.
    set (l := elements _) in *.
    destruct (grow_loop_spec nn_index l s)
      as (W & X & Hst & Hsub & Hlen & Htr & Hres).
    set (s1 := state_of (for_each l (query_seed nn_index) s)) in *.
    assert (Hl : elements (external_positive_descriptors s1
                           ∪ positive_descriptors s1) = l)
      by (by rewrite Hst).
    assert (HX : _wi_seeds_used s1 = X) by (by rewrite Hst).
    assert (Hn : pos_seed_neighbors s1 = pos_seed_neighbors s)
      by (by rewrite Hst).
    destruct (update_working_set_cases nn_index s1) as [[He' ->] | [_ ->]];
      [done |].
    cbn. rewrite Hl.
    destruct Hres as [[_ Hall] | [_ (l1 & p & l2 & El & Hl1 & Hp & Hf)]].
    + apply grow_loop_skips. by rewrite HX.
    + rewrite El. apply grow_loop_fails_again; by rewrite ?HX, ?Hn.
Qed.

Lemma grow_all_length indexes s :
  length (working_set s) <= length (working_set (grow_all indexes s)).
Proof.
  unfold grow_all. revert s.
  induction indexes as [| nn_index indexes IH]; intros s; simpl; [lia |].
  etrans; [| apply IH].
  destruct (update_working_set_spec nn_index s)
    as (W & X & -> & _ & Hlen & _).
  exact Hlen.
Qed.

(** C8.  With the same neighbour index and no change in between, a second
    [update_working_set] leaves the working set and the used seeds as the
    first call left them, for every session (so also for one with a
    positive example); and the working set never gets smaller over
    any number of [update_working_set] calls. *)
Theorem update_working_set_idempotent_and_growing :
  (forall nn_index s,
     let s1 := state_of (update_working_set nn_index s) in
     let s2 := state_of (update_working_set nn_index s1) in
     working_set s2 = working_set s1 ∧
     _wi_seeds_used s2 = _wi_seeds_used s1) ∧
  (forall indexes s,
     length (working_set s) <= length (working_set (grow_all indexes s))).
Proof.
  split.
  - intros nn_index s s1 s2. unfold s2, s1.
    by rewrite update_working_set_twice.
  - apply grow_all_length.
Qed.

(** C9, where the session departs from it.  [update_working_set] never
    takes the session lock: every event of the call is a read or write of
    a session attribute made at the hold count the caller came with, and
    there is at least one.  Called on a session whose lock the caller does
    not hold, it touches the session unguarded. *)
Theorem update_working_set_takes_no_lock nn_index s :
  trace_of (update_working_set nn_index s) ≠ [] ∧
  Forall (fun e => e = Access (lock s))
    (trace_of (update_working_set nn_index s)) ∧
  lock (state_of (update_working_set nn_index s)) = lock s.
Proof.
  split_and!.
  - by destruct (update_working_set_cases nn_index s) as [[_ ->] | [_ ->]].
  - by destruct (update_working_set_spec nn_index s) as (W & X & _ & _ & _ & Ht).
  - by destruct (update_working_set_spec nn_index s) as (W & X & -> & _).
Qed.

(** ** Refinement *)

Lemma no_vectors_iff (X : gset DescriptorElement) :
  vector <$> elements X = [] <-> X = ∅.
Proof.
  split.
  - intros Hnil. apply fmap_nil_inv in Hnil.
    by apply elements_empty_iff, leibniz_equiv in Hnil.
  - intros ->. by rewrite elements_empty.
Qed.

Lemma unzip_items_cases (t : MemoryDescriptorSet) :
  (t = [] ∧ unzip_items t = None) ∨
  (t ≠ [] ∧ unzip_items t = Some (t.*1, t.*2)).
Proof. destruct t; [by left | by right]. Qed.

(** The five ways a [refine] call can end. *)
Lemma refine_cases s :
  let pos := vector <$> elements (positive_descriptors s
                                  ∪ external_positive_descriptors s) in
  let neg := vector <$> elements (negative_descriptors s
                                  ∪ external_negative_descriptors s) in
  let pool := vector <$> (working_set s).*2 in
  let scored ranking :=
    dict_of_pairs (zip (iterdescriptors (working_set s)) ranking.1) in
  (positive_descriptors s ∪ external_positive_descriptors s = ∅ ∧
   result_of (refine s) = Raised no_positive_adjudication ∧
   state_of (refine s) = s) ∨
  (positive_descriptors s ∪ external_positive_descriptors s ≠ ∅ ∧
   working_set s = [] ∧
   result_of (refine s) = Raised nothing_to_unpack ∧
   state_of (refine s) = s) ∨
  (positive_descriptors s ∪ external_positive_descriptors s ≠ ∅ ∧
   working_set s ≠ [] ∧
   rank_relevancy_with_feedback s pos neg pool (working_set s).*1 = None ∧
   result_of (refine s)
     = Raised (CollaboratorError "rank_relevancy_with_feedback") ∧
   state_of (refine s) = s) ∨
  (exists ranking e,
     positive_descriptors s ∪ external_positive_descriptors s ≠ ∅ ∧
     working_set s ≠ [] ∧
     rank_relevancy_with_feedback s pos neg pool (working_set s).*1
       = Some ranking ∧
     get_many_descriptors ranking.2 (working_set s) = Raised e ∧
     result_of (refine s) = Raised e ∧
     state_of (refine s) = upd_results (fun _ => Some (scored ranking)) s) ∨
  (exists ranking feedback,
     positive_descriptors s ∪ external_positive_descriptors s ≠ ∅ ∧
     working_set s ≠ [] ∧
     rank_relevancy_with_feedback s pos neg pool (working_set s).*1
       = Some ranking ∧
     get_many_descriptors ranking.2 (working_set s) = Ok feedback ∧
     result_of (refine s) = Ok tt ∧
     state_of (refine s) =
       upd_ordered_non_adj (fun _ => None)
         (upd_ordered_neg (fun _ => None)
           (upd_ordered_pos (fun _ => None)
             (upd_ordered_results (fun _ => None)
               (upd_rank_contrib_neg_ext
                  (fun _ => external_negative_descriptors s)
                  (upd_rank_contrib_neg (fun _ => negative_descriptors s)
                    (upd_rank_contrib_pos_ext
                       (fun _ => external_positive_descriptors s)
                       (upd_rank_contrib_pos
                          (fun _ => positive_descriptors s)
                          (upd_feedback_list (fun _ => Some feedback)
                            (upd_results
                               (fun _ => Some (scored ranking)) s)))))))))).
Proof.
  intros pos neg pool scored.
  unfold refine. op_unfold. cbn -[unzip_items]. fold pos neg.
  destruct (decide (pos = [])) as [Hnil | Hpos]; cbn -[unzip_items].
  { left. split; [by apply no_vectors_iff | by destruct s]. }
  right.
  assert (Hne : positive_descriptors s
                ∪ external_positive_descriptors s ≠ ∅).
  { intros He. apply Hpos. by apply no_vectors_iff. }
  destruct (unzip_items_cases (working_set s)) as [[Hws ->] | [Hws ->]];
    cbn.
  { left. split_and!; try done. by destruct s. }
  right. fold pool.
  destruct (rank_relevancy_with_feedback s pos neg pool (working_set s).*1)
    as [ranking |] eqn:Hrank; cbn.
  2: { left. split_and!; try done. by destruct s. }
  right.
  destruct (get_many_descriptors ranking.2 (working_set s))
    as [feedback | e] eqn:Hfb; cbn.
  - right. exists ranking, feedback. split_and!; try done.
  - left. exists ranking, e. split_and!; try done.
Qed.

(** C10.  With a positive example but an empty working set, [refine] raises
    (the unpacking of the transposed, empty item list fails) and the
    session, with its results, feedback list, contributing sets and cached
    views, is as it was before the call. *)
Theorem refine_empty_working_set_raises s :
  positive_descriptors s ∪ external_positive_descriptors s ≠ ∅ ->
  working_set s = [] ->
  result_of (refine s) = Raised nothing_to_unpack ∧ state_of (refine s) = s.
Proof.
  intros Hpos Hws.
  destruct (refine_cases s)
    as [(He & _) | [(_ & _ & Hr & Hs) | [(_ & Hne & _) |
        [(? & ? & _ & Hne & _) | (? & ? & _ & Hne & _)]]]]; done.
Qed.

(** ** Sorting by descending score *)

Lemma insert_by_score_perm x l : Permutation (x :: l) (insert_by_score x l).
Proof.
  induction l as [| y l IH]; simpl; [done |].
  destruct (Qle_bool y.2 x.2); [done |].
  rewrite <- IH. apply perm_swap.
Qed.


Lemma insert_by_score_sorted x l :
  StronglySorted by_descending_score l ->
  StronglySorted by_descending_score (insert_by_score x l).
Proof.
  induction 1 as [| y l Hs IH Hy]; simpl.
  - repeat constructor.
  - destruct (Qle_bool y.2 x.2) eqn:Hle.
    + apply Qle_bool_iff in Hle.
      constructor; [by constructor |].
      constructor; [exact Hle |].
      eapply Forall_impl; [exact Hy |].
      intros z Hz. unfold by_descending_score in *.
      by eapply Qle_trans.
    + constructor; [exact IH |].
      rewrite <- insert_by_score_perm. constructor; [| exact Hy].
      unfold by_descending_score. apply Qlt_le_weak, Qnot_le_lt.
      intros Hle'. apply Qle_bool_iff in Hle'. congruence.
Qed.

Lemma sorted_by_score_reverse_sorted items :
  StronglySorted by_descending_score (sorted_by_score_reverse items).
Proof.
  induction items as [| x items IH]; simpl; [constructor |].
  by apply insert_by_score_sorted.
Qed.

Lemma insert_by_score_stable q x l :
  List.filter (fun t => Qeq_bool t.2 q) (insert_by_score x l) =
  List.filter (fun t => Qeq_bool t.2 q) (x :: l).
Proof.
  induction l as [| y l IH]; [done |].
  cbn [insert_by_score].
  destruct (Qle_bool y.2 x.2) eqn:Hle; [done |].
  cbn [List.filter] in *. rewrite IH.
  destruct (Qeq_bool x.2 q) eqn:Hx, (Qeq_bool y.2 q) eqn:Hy; try done.
  exfalso. apply Qeq_bool_iff in Hx, Hy.
  assert (Hxy : (y.2 <= x.2)%Q) by (rewrite Hx, Hy; apply Qle_refl).
  apply Qle_bool_iff in Hxy. congruence.
Qed.

Lemma sorted_by_score_reverse_stable q items :
  List.filter (fun t => Qeq_bool t.2 q) (sorted_by_score_reverse items) =
  List.filter (fun t => Qeq_bool t.2 q) items.
Proof.
  induction items as [| x items IH]; [done |].
  cbn [sorted_by_score_reverse foldr].
  rewrite insert_by_score_stable. cbn [List.filter].
  fold (sorted_by_score_reverse items). by rewrite IH.
Qed.


Lemma filter_score_nil l :
  (forall q, List.filter (fun t : DescriptorElement * Q => Qeq_bool t.2 q) l
             = []) ->
  l = [].
Proof.
  destruct l as [| b l]; [done |]. intros Hq. specialize (Hq b.2).
  cbn in Hq. assert (Hb : Qeq_bool b.2 b.2 = true)
    by (apply Qeq_bool_iff, Qeq_refl).
  by rewrite Hb in Hq.
Qed.

Lemma head_score_is_largest a l b l' :
  StronglySorted by_descending_score (b :: l') ->
  (forall q, List.filter (fun t => Qeq_bool t.2 q) (a :: l) =
             List.filter (fun t => Qeq_bool t.2 q) (b :: l')) ->
  (a.2 <= b.2)%Q.
Proof.
  intros Hs Hq. specialize (Hq a.2).
  assert (Ha : In a (List.filter (fun t => Qeq_bool t.2 a.2) (b :: l'))).
  { rewrite <- Hq. cbn.
    assert (Haa : Qeq_bool a.2 a.2 = true)
      by (apply Qeq_bool_iff, Qeq_refl).
    rewrite Haa. by left. }
  apply filter_In in Ha as [[<- | Hin] _]; [apply Qle_refl |].
  apply StronglySorted_inv in Hs as [_ Hb].
  rewrite Forall_forall in Hb. apply Hb. by apply list_elem_of_In.
Qed.

(** Two lists by descending score that agree, score by score, on the
    order of their entries are the same list: the three properties of
    [ordered_view_of] leave no choice to the sorting algorithm. *)
Lemma sorted_stable_unique l1 l2 :
  StronglySorted by_descending_score l1 ->
  StronglySorted by_descending_score l2 ->
  (forall q, List.filter (fun t => Qeq_bool t.2 q) l1 =
             List.filter (fun t => Qeq_bool t.2 q) l2) ->
  l1 = l2.
Proof.
  revert l2. induction l1 as [| a l1 IH]; intros l2 H1 H2 Hq.
  - symmetry. apply filter_score_nil. intros q. by rewrite <- Hq.
  - destruct l2 as [| b l2].
    { apply filter_score_nil. intros q. by rewrite Hq. }
    assert (Hab : (a.2 == b.2)%Q).
    { apply Qle_antisym.
      - by eapply head_score_is_largest.
      - eapply head_score_is_largest; [exact H1 |].
        intros q. symmetry. apply Hq. }
    assert (Heads : a = b ∧
              forall q, List.filter (fun t => Qeq_bool t.2 q) l1 =
                        List.filter (fun t => Qeq_bool t.2 q) l2).
    { assert (Ha : a = b).
      { specialize (Hq a.2). cbn in Hq.
        assert (Haa : Qeq_bool a.2 a.2 = true)
          by (apply Qeq_bool_iff, Qeq_refl).
        assert (Hba : Qeq_bool b.2 a.2 = true)
          by (apply Qeq_bool_iff; by symmetry).
        rewrite Haa, Hba in Hq. congruence. }
      split; [exact Ha |]. subst b. intros q. specialize (Hq q).
      cbn in Hq. destruct (Qeq_bool a.2 q); congruence. }
    destruct Heads as [-> Htail]. f_equal.
    apply IH; [| | exact Htail].
    + by apply StronglySorted_inv in H1 as [? _].
    + by apply StronglySorted_inv in H2 as [? _].
Qed.

Lemma ordered_view_unique items rows :
  ordered_view_of (Some items) rows -> rows = sorted_by_score_reverse items.
Proof.
  intros (_ & Hsorted & Hstable).
  apply sorted_stable_unique;
    [exact Hsorted | apply sorted_by_score_reverse_sorted |].
  intros q. by rewrite Hstable, sorted_by_score_reverse_stable.
Qed.

(** ** The ordered views *)

Ltac destruct_option :=
  match goal with
  | |- context [match ?c with Some _ => _ | None => _ end] =>
      is_var c; destruct c
  end.

Lemma ordered_results_result s :
  result_of (ordered_results s) = Ok (current_rows s).
Proof.
  unfold ordered_results, current_rows, ranked_rows. op_unfold. cbn.
  destruct (_ordered_results s); cbn; [done |].
  by destruct (results s).
Qed.

Lemma ordered_results_state s :
  state_of (ordered_results s) =
  upd_ordered_results
    (fun c => match c with
              | Some r => Some r
              | None => sorted_by_score_reverse <$> results s
              end) s.
Proof.
  unfold ordered_results. op_unfold. cbn.
  destruct (_ordered_results s) eqn:Hc; cbn;
    [| destruct (results s) eqn:Hr; cbn];
    destruct s; cbn in *; by subst.
Qed.

Lemma ordered_results_run s :
  exists t, ordered_results s =
            (Ok (current_rows s), state_of (ordered_results s), t).
Proof.
  pose proof (ordered_results_result s) as Hr.
  destruct (ordered_results s) as [[r s1] t]. cbn in *. subst. by exists t.
Qed.

Lemma feedback_results_state s : state_of (feedback_results s) = s.
Proof.
  unfold feedback_results. op_unfold. destruct s as [].
  cbn. by repeat (destruct_option; cbn).
Qed.

Lemma positive_relevancy_result s :
  result_of (get_positive_adjudication_relevancy s) =
  Ok match _ordered_pos s with
     | Some r => r
     | None =>
         filter (fun t => t.1 ∈ rank_contrib_pos s ∪ rank_contrib_pos_ext s)
                (current_rows s)
     end.
Proof.
  unfold get_positive_adjudication_relevancy. op_unfold. cbn.
  destruct (_ordered_pos s); cbn; [done |].
  destruct (ordered_results_run (upd_lock S s)) as [t ->]. done.
Qed.

Lemma positive_relevancy_state s :
  state_of (get_positive_adjudication_relevancy s) =
  match _ordered_pos s with
  | Some _ => s
  | None =>
      upd_ordered_pos
        (fun _ => Some (filter (fun t => t.1 ∈ rank_contrib_pos s
                                         ∪ rank_contrib_pos_ext s)
                               (current_rows s)))
        (state_of (ordered_results s))
  end.
Proof.
  unfold get_positive_adjudication_relevancy. op_unfold. cbn.
  destruct (_ordered_pos s) eqn:Hc; cbn; [by destruct s |].
  destruct (ordered_results_run (upd_lock S s)) as [t ->]. cbn.
  rewrite !ordered_results_state. by destruct s.
Qed.

Lemma negative_relevancy_state s :
  state_of (get_negative_adjudication_relevancy s) =
  match _ordered_neg s with
  | Some _ => s
  | None =>
      upd_ordered_neg
        (fun _ => Some (filter (fun t => t.1 ∈ rank_contrib_neg s
                                         ∪ rank_contrib_neg_ext s)
                               (current_rows s)))
        (state_of (ordered_results s))
  end.
Proof.
  unfold get_negative_adjudication_relevancy. op_unfold. cbn.
  destruct (_ordered_neg s) eqn:Hc; cbn; [by destruct s |].
  destruct (ordered_results_run (upd_lock S s)) as [t ->]. cbn.
  rewrite !ordered_results_state. by destruct s.
Qed.

Lemma unadjudicated_relevancy_state s :
  state_of (get_unadjudicated_relevancy s) =
  match _ordered_non_adj s with
  | Some _ => s
  | None =>
      upd_ordered_non_adj
        (fun _ => Some (filter (fun t => t.1 ∉ rank_contrib_pos s
                                         ∪ rank_contrib_pos_ext s
                                         ∪ rank_contrib_neg s
                                         ∪ rank_contrib_neg_ext s)
                               (current_rows s)))
        (state_of (ordered_results s))
  end.
Proof.
  unfold get_unadjudicated_relevancy. op_unfold. cbn.
  destruct (_ordered_non_adj s) eqn:Hc; cbn; [by destruct s |].
  destruct (ordered_results_run (upd_lock S s)) as [t ->]. cbn.
  rewrite !ordered_results_state. by destruct s.
Qed.

Lemma coherent_current_rows s :
  views_coherent s -> current_rows s = ranked_rows s.
Proof.
  intros (Hr & _). unfold current_rows.
  destruct (_ordered_results s) as [r |] eqn:Hc; [| done].
  by destruct (Hr r).
Qed.

(** ** The state codec leaves the ranking alone, or resets it *)

Lemma bind_lift_ok {A B} (a : A) (k : A -> Op B) s :
  (lift (Ok a) ≫= k) s = k a s.
Proof.
  unfold mbind, Op_bind, lift. by destruct (k a s) as [[r s2] t2].
Qed.

Lemma same_but_adjudications_refl s : same_but_adjudications s s.
Proof. unfold same_but_adjudications. by destruct s. Qed.

Lemma same_but_adjudications_trans s1 s2 s3 :
  same_but_adjudications s1 s2 -> same_but_adjudications s2 s3 ->
  same_but_adjudications s1 s3.
Proof.
  unfold same_but_adjudications. intros H12 H23.
  destruct s1, s2, s3. session_eq.
Qed.

Lemma for_each_preserves {X} (R : IqrSession -> IqrSession -> Prop)
    (l : list X) (body : X -> Op unit) s :
  (forall s, R s s) ->
  (forall s1 s2 s3, R s1 s2 -> R s2 s3 -> R s1 s3) ->
  (forall x, x ∈ l -> forall s, R s (state_of (body x s))) ->
  R s (state_of (for_each l body s)).
Proof.
  intros Hrefl Htrans. revert s.
  induction l as [| x l IH]; intros s Hbody; [apply Hrefl |].
  rewrite for_each_cons.
  pose proof (Hbody x ltac:(left) s) as Hx.
  destruct (body x s) as [[[[] | e] s1] t1]; [| exact Hx].
  assert (Hl : R s1 (state_of (for_each l body s1))).
  { apply IH. intros y Hy. apply Hbody. by right. }
  destruct (for_each l body s1) as [[r s2] t2].
  eapply Htrans; [exact Hx | exact Hl].
Qed.

Lemma load_entries_frame factory source target s :
  adjudication_target target ->
  same_but_adjudications s
    (state_of (load_entries factory source target s)).
Proof.
  intros Htarget. unfold load_entries.
  apply (for_each_preserves same_but_adjudications).
  - apply same_but_adjudications_refl.
  - apply same_but_adjudications_trans.
  - intros [uid vec] _ s'. op_unfold. cbn.
    destruct (load_descriptor factory uid vec); cbn.
    + apply Htarget.
    + apply same_but_adjudications_refl.
Qed.

Lemma adjudication_targets :
  adjudication_target upd_external_positive_descriptors ∧
  adjudication_target upd_external_negative_descriptors ∧
  adjudication_target upd_positive_descriptors ∧
  adjudication_target upd_negative_descriptors.
Proof.
  unfold adjudication_target, same_but_adjudications.
  split_and!; intros f s; by destruct s.
Qed.

Lemma load_state_frame factory state s :
  same_but_adjudications s (state_of (load_state factory state s)).
Proof.
  destruct adjudication_targets as (Hep & Hen & Hp & Hn).
  unfold load_state.
  destruct (state_item state "external_pos") as [external_pos | e];
    [rewrite bind_lift_ok | apply same_but_adjudications_refl].
  destruct (state_item state "external_neg") as [external_neg | e];
    [rewrite bind_lift_ok | apply same_but_adjudications_refl].
  destruct (state_item state "pos") as [pos | e];
    [rewrite bind_lift_ok | apply same_but_adjudications_refl].
  destruct (state_item state "neg") as [neg | e];
    [rewrite bind_lift_ok | apply same_but_adjudications_refl].
  apply (for_each_preserves same_but_adjudications).
  - apply same_but_adjudications_refl.
  - apply same_but_adjudications_trans.
  - intros st Hst s'. apply load_entries_frame.
    repeat (apply elem_of_cons in Hst as [-> | Hst]; [done |]).
    by apply elem_of_nil in Hst.
Qed.

Lemma reset_returns s : result_of (reset s) = Ok tt.
Proof. reflexivity. Qed.

Lemma reset_then_state (m : Op unit) s :
  state_of (with_lock (reset;; m) s) =
  upd_lock Nat.pred (state_of (m (state_of (reset (upd_lock S s))))).
Proof.
  unfold with_lock, mbind, Op_bind.
  pose proof (reset_returns (upd_lock S s)) as Hr.
  destruct (reset (upd_lock S s)) as [[r s1] t1]. cbn in Hr. subst r.
  cbn. by destruct (m s1) as [[r2 s2] t2].
Qed.

Section CodecFrames.
Context `{StateArchive}.

Lemma get_state_bytes_state s : state_of (get_state_bytes s) = s.
Proof.
  unfold get_state_bytes. op_unfold. cbn.
  repeat (match goal with
          | |- context [d_set_to_list ?X] => destruct (d_set_to_list X)
          end; cbn);
    by destruct s.
Qed.

Lemma set_state_bytes_cases b factory s :
  (exists e, set_state_bytes b factory s = (Raised e, s, [])) ∨
  (exists state,
     (exists names text,
        zip_namelist b = Some names ∧ STATE_ZIP_FILENAME ∈ names ∧
        zip_read b STATE_ZIP_FILENAME = Some text ∧
        json_loads text = Some state) ∧
     set_state_bytes b factory s =
       with_lock (reset;; load_state factory state) s).
Proof.
  unfold set_state_bytes.
  destruct (zip_namelist b) as [names |] eqn:Hnames; cbn [call_result].
  2: { left. by eexists. }
  rewrite bind_lift_ok.
  destruct (decide (STATE_ZIP_FILENAME ∈ names)) as [Hin | Hout].
  2: { left. by eexists. }
  destruct (zip_read b STATE_ZIP_FILENAME) as [text |] eqn:Htext;
    cbn [call_result].
  2: { left. by eexists. }
  rewrite bind_lift_ok.
  destruct (json_loads text) as [state |] eqn:Hstate; cbn [call_result].
  2: { left. by eexists. }
  rewrite bind_lift_ok.
  right. exists state. split; [| done]. by exists names, text.
Qed.

Lemma set_state_bytes_state b factory s :
  state_of (set_state_bytes b factory s) = s ∨
  same_but_adjudications (state_of (reset s))
    (state_of (set_state_bytes b factory s)).
Proof.
  destruct (set_state_bytes_cases b factory s)
    as [[e ->] | (state & _ & ->)]; [by left | right].
  rewrite reset_then_state.
  pose proof (load_state_frame factory state
                (state_of (reset (upd_lock S s)))) as Hf.
  revert Hf. rewrite !reset_state. unfold same_but_adjudications.
  match goal with
  | |- context [state_of ?r] => generalize (state_of r)
  end.
  intros s' Hs'. destruct s', s. session_eq.
Qed.
End CodecFrames.

(** ** Calls and the cached views *)

Section Calls.
Context `{StateArchive}.

Lemma perform_ranker c s :
  rank_relevancy_with_feedback (perform c s)
  = rank_relevancy_with_feedback s.
Proof.
  destruct c; cbn [perform].
  - by rewrite external_descriptors_state.
  - by destruct (adjudicate_state new_positives new_negatives
                   un_positives un_negatives s) as (? & ? & ? & ->).
  - by destruct (update_working_set_spec nn_index s)
      as (W & X & -> & _).
  - destruct (refine_cases s)
      as [(_ & _ & ->) | [(_ & _ & _ & ->) | [(_ & _ & _ & _ & ->) |
          [(? & ? & _ & _ & _ & _ & _ & ->) |
           (? & ? & _ & _ & _ & _ & _ & ->)]]]]; done.
  - by rewrite ordered_results_state.
  - by rewrite feedback_results_state.
  - rewrite positive_relevancy_state.
    destruct (_ordered_pos s); [done |]. by rewrite ordered_results_state.
  - rewrite negative_relevancy_state.
    destruct (_ordered_neg s); [done |]. by rewrite ordered_results_state.
  - rewrite unadjudicated_relevancy_state.
    destruct (_ordered_non_adj s); [done |].
    by rewrite ordered_results_state.
  - by rewrite reset_state.
  - by rewrite get_state_bytes_state.
  - destruct (set_state_bytes_state b factory s) as [-> | ->]; [done |].
    by rewrite reset_state.
Qed.

Lemma keeps_ranking_frame c s :
  keeps_ranking c = true -> same_ranking s (perform c s).
Proof.
  unfold same_ranking.
  destruct c; cbn [perform keeps_ranking]; try discriminate; intros _.
  - by rewrite external_descriptors_state.
  - by destruct (adjudicate_state new_positives new_negatives
                   un_positives un_negatives s) as (? & ? & ? & ->).
  - by destruct (update_working_set_spec nn_index s)
      as (W & X & -> & _).
  - by rewrite ordered_results_state.
  - by rewrite feedback_results_state.
  - rewrite positive_relevancy_state.
    destruct (_ordered_pos s); [done |]. by rewrite ordered_results_state.
  - rewrite negative_relevancy_state.
    destruct (_ordered_neg s); [done |]. by rewrite ordered_results_state.
  - rewrite unadjudicated_relevancy_state.
    destruct (_ordered_non_adj s); [done |].
    by rewrite ordered_results_state.
  - by rewrite get_state_bytes_state.
Qed.

Lemma ordered_results_coherent s :
  views_coherent s -> views_coherent (state_of (ordered_results s)).
Proof.
  intros (Hr & Hp & Hn & Hu). rewrite ordered_results_state.
  unfold views_coherent, ranked_rows in *. cbn.
  split_and!; try done.
  intros r. destruct (_ordered_results s) as [r' |] eqn:Hc.
  - intros [= <-]. by apply Hr.
  - destruct (results s) as [items |]; [| done].
    cbn. intros [= <-]. by split.
Qed.

Lemma ordered_results_rows s :
  current_rows (state_of (ordered_results s)) = current_rows s.
Proof.
  rewrite ordered_results_state. unfold current_rows, ranked_rows. cbn.
  destruct (_ordered_results s); [done |]. by destruct (results s).
Qed.

Lemma keeps_ranking_rows c s :
  keeps_ranking c = true -> current_rows (perform c s) = current_rows s.
Proof.
  destruct c; cbn [perform keeps_ranking]; try discriminate; intros _.
  - by rewrite external_descriptors_state.
  - by destruct (adjudicate_state new_positives new_negatives
                   un_positives un_negatives s) as (? & ? & ? & ->).
  - by destruct (update_working_set_spec nn_index s)
      as (W & X & -> & _).
  - apply ordered_results_rows.
  - by rewrite feedback_results_state.
  - rewrite positive_relevancy_state.
    destruct (_ordered_pos s); [done |].
    rewrite <- (ordered_results_rows s). done.
  - rewrite negative_relevancy_state.
    destruct (_ordered_neg s); [done |].
    rewrite <- (ordered_results_rows s). done.
  - rewrite unadjudicated_relevancy_state.
    destruct (_ordered_non_adj s); [done |].
    rewrite <- (ordered_results_rows s). done.
  - by rewrite get_state_bytes_state.
Qed.

Lemma keeps_ranking_coherent c s :
  keeps_ranking c = true -> views_coherent s ->
  views_coherent (perform c s).
Proof.
  destruct c; cbn [perform keeps_ranking]; try discriminate;
    intros _ Hs.
  - by rewrite external_descriptors_state.
  - destruct (adjudicate_state new_positives new_negatives
                un_positives un_negatives s) as (b1 & b2 & b3 & ->).
    destruct Hs as (Hr & Hp & Hn & Hu).
    unfold views_coherent, ranked_rows in *. cbn.
    split_and!; [done | ..]; intros r.
    + destruct b1; [done | apply Hp].
    + destruct b2; [done | apply Hn].
    + destruct b3; [done | apply Hu].
  - by destruct (update_working_set_spec nn_index s)
      as (W & X & -> & _).
  - by apply ordered_results_coherent.
  - by rewrite feedback_results_state.
  - rewrite positive_relevancy_state.
    destruct (_ordered_pos s) eqn:Hc; [done |].
    rewrite (coherent_current_rows s Hs).
    pose proof (ordered_results_coherent s Hs) as (Hr & Hp & Hn & Hu).
    revert Hr Hp Hn Hu. rewrite ordered_results_state.
    unfold views_coherent, ranked_rows. cbn. intros Hr Hp Hn Hu.
    split_and!; try done. by intros r [= <-].
  - rewrite negative_relevancy_state.
    destruct (_ordered_neg s) eqn:Hc; [done |].
    rewrite (coherent_current_rows s Hs).
    pose proof (ordered_results_coherent s Hs) as (Hr & Hp & Hn & Hu).
    revert Hr Hp Hn Hu. rewrite ordered_results_state.
    unfold views_coherent, ranked_rows. cbn. intros Hr Hp Hn Hu.
    split_and!; try done. by intros r [= <-].
  - rewrite unadjudicated_relevancy_state.
    destruct (_ordered_non_adj s) eqn:Hc; [done |].
    rewrite (coherent_current_rows s Hs).
    pose proof (ordered_results_coherent s Hs) as (Hr & Hp & Hn & Hu).
    revert Hr Hp Hn Hu. rewrite ordered_results_state.
    unfold views_coherent, ranked_rows. cbn. intros Hr Hp Hn Hu.
    split_and!; try done. by intros r [= <-].
  - by rewrite get_state_bytes_state.
Qed.

Lemma perform_all_snoc calls c s :
  perform_all (calls ++ [c]) s = perform c (perform_all calls s).
Proof. unfold perform_all. by rewrite foldl_app. Qed.

Lemma keeps_ranking_all calls s :
  forallb keeps_ranking calls = true ->
  same_ranking s (perform_all calls s) ∧
  current_rows (perform_all calls s) = current_rows s ∧
  (views_coherent s -> views_coherent (perform_all calls s)).
Proof.
  induction calls as [| c calls IH] using rev_ind; intros Hk.
  - split_and!; [by repeat split | done | done].
  - rewrite forallb_app in Hk. apply andb_prop in Hk as [Hk Hc].
    cbn in Hc. rewrite andb_true_r in Hc.
    destruct (IH Hk) as ((R1 & R2 & R3 & R4 & R5) & Hrows & Hcoh).
    rewrite perform_all_snoc.
    destruct (keeps_ranking_frame c (perform_all calls s) Hc)
      as (F1 & F2 & F3 & F4 & F5).
    split_and!.
    + unfold same_ranking. split_and!; congruence.
    + by rewrite keeps_ranking_rows.
    + intros Hs. by apply keeps_ranking_coherent, Hcoh.
Qed.
End Calls.

(** ** Coherence of the cached views *)

Lemma no_caches_coherent s :
  _ordered_results s = None -> _ordered_pos s = None ->
  _ordered_neg s = None -> _ordered_non_adj s = None ->
  views_coherent s.
Proof.
  intros Hr Hp Hn Hu. unfold views_coherent.
  rewrite Hr, Hp, Hn, Hu. by split_and!.
Qed.

Lemma dict_get_is_Some {V} (k : string) (d : list (string * V)) :
  k ∈ d.*1 -> is_Some (dict_get k d).
Proof.
  induction d as [| [k' v] d IH]; cbn.
  - intros Hk. by apply elem_of_nil in Hk.
  - intros Hk. destruct (decide (k = k')); [by eexists |].
    apply IH. by apply elem_of_cons in Hk as [-> | Hk].
Qed.

Lemma get_many_descriptors_ok uuids (t : MemoryDescriptorSet) :
  (forall u, u ∈ uuids -> u ∈ t.*1) ->
  exists ds, get_many_descriptors uuids t = Ok ds.
Proof.
  induction uuids as [| u uuids IH]; intros Hin; cbn; [by eexists |].
  destruct (dict_get_is_Some u t) as [d ->]; [apply Hin; by left |].
  destruct IH as [ds ->]; [intros v Hv; apply Hin; by right |].
  by eexists.
Qed.

Section Coherence.
Context `{StateArchive}.

Lemma refine_coherent s :
  shortlist_in_pool (rank_relevancy_with_feedback s) ->
  views_coherent s -> views_coherent (state_of (refine s)).
Proof.
  intros Hrank Hs.
  destruct (refine_cases s)
    as [(_ & _ & ->) | [(_ & _ & _ & ->) | [(_ & _ & _ & _ & ->) |
        [(ranking & e & _ & _ & Hr & Hfb & _) |
         (ranking & fb & _ & _ & _ & _ & _ & ->)]]]];
    [done | done | done | | by apply no_caches_coherent].
  exfalso.
  destruct (get_many_descriptors_ok ranking.2 (working_set s))
    as [ds Hds]; [| congruence].
  intros u Hu. by eapply Hrank.
Qed.

Lemma perform_coherent c s :
  shortlist_in_pool (rank_relevancy_with_feedback s) ->
  views_coherent s -> views_coherent (perform c s).
Proof.
  intros Hrank Hs.
  destruct (keeps_ranking c) eqn:Hk;
    [by apply keeps_ranking_coherent |].
  destruct c; try discriminate; cbn [perform].
  - by apply refine_coherent.
  - rewrite reset_state. by apply no_caches_coherent.
  - destruct (set_state_bytes_state b factory s) as [-> | ->]; [done |].
    rewrite reset_state. by apply no_caches_coherent.
Qed.

Lemma reachable_coherent rank k uid calls :
  shortlist_in_pool rank ->
  views_coherent (perform_all calls (new_session rank k uid)) ∧
  rank_relevancy_with_feedback
    (perform_all calls (new_session rank k uid)) = rank.
Proof.
  intros Hrank.
  induction calls as [| c calls [IHc IHr]] using rev_ind.
  - split; [| done]. by apply no_caches_coherent.
  - rewrite perform_all_snoc. split.
    + apply perform_coherent; [by rewrite IHr | done].
    + by rewrite perform_ranker.
Qed.



(** C2.  After a [refine] that returned, and after any further calls
    other than [refine], [reset] and [set_state_bytes] (adjudications
    among them), [get_positive_adjudication_relevancy] returns exactly
    the rows of [ordered_results] whose descriptor is in the positive or
    the external positive set as they were at that [refine]; the rows of
    [ordered_results] are those of that refinement. *)
Theorem positive_view_follows_refine_snapshot s calls :
  result_of (refine s) = Ok tt ->
  forallb keeps_ranking calls = true ->
  let s1 := state_of (refine s) in
  let s2 := perform_all calls s1 in
  let snapshot :=
    positive_descriptors s ∪ external_positive_descriptors s in
  rank_contrib_pos s1 = positive_descriptors s ∧
  rank_contrib_pos_ext s1 = external_positive_descriptors s ∧
  exists rows,
    result_of (ordered_results s2) = Ok rows ∧
    rows = ranked_rows s1 ∧
    result_of (get_positive_adjudication_relevancy s2)
    = Ok (filter (fun t => t.1 ∈ snapshot) rows).
Proof.
  intros Hok Hk s1 s2 snapshot.
  assert (Hs1 : views_coherent s1 ∧
                rank_contrib_pos s1 = positive_descriptors s ∧
                rank_contrib_pos_ext s1 = external_positive_descriptors s).
  { unfold s1.
    destruct (refine_cases s)
      as [(_ & Hr & _) | [(_ & _ & Hr & _) | [(_ & _ & _ & Hr & _) |
          [(ranking & e & _ & _ & _ & _ & Hr & _) |
           (ranking & fb & _ & _ & _ & _ & _ & ->)]]]];
      try (rewrite Hr in Hok; discriminate).
    split; [by apply no_caches_coherent | done]. }
  destruct Hs1 as (Hcoh1 & Hcp & Hcpe).
  destruct (keeps_ranking_all calls s1 Hk)
    as ((Hres & Hp & Hpe & _) & Hrows & Hcoh).
  fold s2 in Hres, Hp, Hpe, Hrows, Hcoh.
  specialize (Hcoh Hcoh1).
  assert (Hranked : ranked_rows s2 = ranked_rows s1)
    by (unfold ranked_rows; by rewrite Hres).
  split_and!; [done | done |].
  exists (ranked_rows s1). split_and!.
  - rewrite ordered_results_result, (coherent_current_rows s2 Hcoh).
    by rewrite Hranked.
  - done.
  - rewrite positive_relevancy_result. f_equal.
    rewrite (coherent_current_rows s2 Hcoh), Hranked.
    destruct (_ordered_pos s2) as [r |] eqn:Hc.
    + destruct Hcoh as (_ & Hpos & _). rewrite (Hpos r Hc).
      by rewrite Hranked, Hp, Hpe, Hcp, Hcpe.
    + by rewrite Hp, Hpe, Hcp, Hcpe.
Qed.
End Coherence.

(** ** Saving and restoring the adjudication state *)

Lemma d_list_to_list_ok ds :
  (forall d, d ∈ ds -> is_Some (vector d)) ->
  d_list_to_list ds = Ok (entry_of <$> ds).
Proof.
  induction ds as [| d ds IH]; intros Hv; [done |]. cbn.
  destruct (Hv d) as [v Hd]; [by left |].
  unfold entry_of at 1. rewrite Hd, IH; [done |].
  intros d' Hd'. apply Hv. by right.
Qed.

Lemma d_set_to_list_ok (X : gset DescriptorElement) :
  (forall d, d ∈ X -> is_Some (vector d)) ->
  d_set_to_list X = Ok (entry_of <$> elements X).
Proof.
  intros Hv. apply d_list_to_list_ok. intros d Hd. apply Hv.
  by apply elem_of_elements.
Qed.

Lemma load_descriptor_reproduces factory d :
  is_Some (vector d) -> reproduces factory d ->
  load_descriptor factory (entry_of d).1 (entry_of d).2 = Ok d.
Proof.
  intros [v Hv] [Hu Hvec]. unfold load_descriptor, entry_of. cbn.
  rewrite Hv. cbn. destruct Hvec as [Hnone | Hsome].
  - rewrite Hnone. unfold set_vector. rewrite Hu, <- Hv. by destruct d.
  - rewrite Hsome, Hv. rewrite decide_True by done. f_equal.
    destruct (factory (uuid d)) as [u' w'], d as [u w]. cbn in *.
    congruence.
Qed.

Lemma load_entries_ok factory ds target s :
  (forall d, d ∈ ds -> is_Some (vector d) ∧ reproduces factory d) ->
  exists t,
    load_entries factory (entry_of <$> ds) target s =
    (Ok tt, foldl (fun s d => target (fun X => X ∪ {[d]}) s) s ds, t).
Proof.
  unfold load_entries. revert s.
  induction ds as [| d ds IH]; intros s Hds; [by eexists |].
  rewrite fmap_cons, for_each_cons.
  destruct (Hds d) as [Hv Hr]; [by left |].
  cbn beta. rewrite (load_descriptor_reproduces factory d Hv Hr).
  rewrite bind_lift_ok. unfold mutate at 1. cbn [foldl].
  destruct (IH (target (fun X => X ∪ {[d]}) s)) as [t ->].
  { intros d' Hd'. apply Hds. by right. }
  by eexists.
Qed.

Lemma fill_external_positive ds s :
  foldl (fun s d => upd_external_positive_descriptors
                      (fun X => X ∪ {[d]}) s) s ds =
  upd_external_positive_descriptors (fun X => X ∪ list_to_set ds) s.
Proof.
  revert s. induction ds as [| d ds IH]; intros s; cbn [foldl].
  - destruct s. unfold upd_external_positive_descriptors. cbn.
    f_equal. set_solver.
  - rewrite IH. destruct s. unfold upd_external_positive_descriptors. cbn.
    f_equal. set_solver.
Qed.

Lemma fill_external_negative ds s :
  foldl (fun s d => upd_external_negative_descriptors
                      (fun X => X ∪ {[d]}) s) s ds =
  upd_external_negative_descriptors (fun X => X ∪ list_to_set ds) s.
Proof.
  revert s. induction ds as [| d ds IH]; intros s; cbn [foldl].
  - destruct s. unfold upd_external_negative_descriptors. cbn.
    f_equal. set_solver.
  - rewrite IH. destruct s. unfold upd_external_negative_descriptors. cbn.
    f_equal. set_solver.
Qed.

Lemma fill_positive ds s :
  foldl (fun s d => upd_positive_descriptors
                      (fun X => X ∪ {[d]}) s) s ds =
  upd_positive_descriptors (fun X => X ∪ list_to_set ds) s.
Proof.
  revert s. induction ds as [| d ds IH]; intros s; cbn [foldl].
  - destruct s. unfold upd_positive_descriptors. cbn.
    f_equal. set_solver.
  - rewrite IH. destruct s. unfold upd_positive_descriptors. cbn.
    f_equal. set_solver.
Qed.

Lemma fill_negative ds s :
  foldl (fun s d => upd_negative_descriptors
                      (fun X => X ∪ {[d]}) s) s ds =
  upd_negative_descriptors (fun X => X ∪ list_to_set ds) s.
Proof.
  revert s. induction ds as [| d ds IH]; intros s; cbn [foldl].
  - destruct s. unfold upd_negative_descriptors. cbn.
    f_equal. set_solver.
  - rewrite IH. destruct s. unfold upd_negative_descriptors. cbn.
    f_equal. set_solver.
Qed.

Lemma load_state_ok factory s0 s :
  (forall d, d ∈ adjudicated s0 ->
             is_Some (vector d) ∧ reproduces factory d) ->
  exists t,
    load_state factory (state_document s0) s =
    (Ok tt,
     upd_negative_descriptors
       (fun X => X ∪ negative_descriptors s0)
       (upd_positive_descriptors
          (fun X => X ∪ positive_descriptors s0)
          (upd_external_negative_descriptors
             (fun X => X ∪ external_negative_descriptors s0)
             (upd_external_positive_descriptors
                (fun X => X ∪ external_positive_descriptors s0) s))),
     t).
Proof.
  intros Hall. unfold load_state, adjudicated in *.
  change (state_item (state_document s0) "external_pos")
    with (Ok (entry_of <$> elements (external_positive_descriptors s0))).
  change (state_item (state_document s0) "external_neg")
    with (Ok (entry_of <$> elements (external_negative_descriptors s0))).
  change (state_item (state_document s0) "pos")
    with (Ok (entry_of <$> elements (positive_descriptors s0))).
  change (state_item (state_document s0) "neg")
    with (Ok (entry_of <$> elements (negative_descriptors s0))).
  rewrite !bind_lift_ok. cbn [for_each fst snd].
  destruct (load_entries_ok factory
              (elements (external_positive_descriptors s0))
              upd_external_positive_descriptors s) as [t1 R1].
  { intros d Hd%elem_of_elements. apply Hall. set_solver. }
  rewrite fill_external_positive, list_to_set_elements_L in R1.
  set (s1 := upd_external_positive_descriptors _ s) in *.
  destruct (load_entries_ok factory
              (elements (external_negative_descriptors s0))
              upd_external_negative_descriptors s1) as [t2 R2].
  { intros d Hd%elem_of_elements. apply Hall. set_solver. }
  rewrite fill_external_negative, list_to_set_elements_L in R2.
  set (s2 := upd_external_negative_descriptors _ s1) in *.
  destruct (load_entries_ok factory
              (elements (positive_descriptors s0))
              upd_positive_descriptors s2) as [t3 R3].
  { intros d Hd%elem_of_elements. apply Hall. set_solver. }
  rewrite fill_positive, list_to_set_elements_L in R3.
  set (s3 := upd_positive_descriptors _ s2) in *.
  destruct (load_entries_ok factory
              (elements (negative_descriptors s0))
              upd_negative_descriptors s3) as [t4 R4].
  { intros d Hd%elem_of_elements. apply Hall. set_solver. }
  rewrite fill_negative, list_to_set_elements_L in R4.
  unfold mbind, Op_bind. rewrite R1, R2, R3, R4. cbn. by eexists.
Qed.

Section RoundTrip.
Context `{StateArchive}.

Lemma get_state_bytes_ok s :
  (forall d, d ∈ adjudicated s -> is_Some (vector d)) ->
  exists t,
    get_state_bytes s =
    (Ok (zip_writestr STATE_ZIP_FILENAME (json_dumps (state_document s))),
     s, t).
Proof.
  intros Hv. unfold get_state_bytes, adjudicated in *. op_unfold. cbn.
  rewrite !d_set_to_list_ok by (intros d Hd; apply Hv; set_solver).
  cbn. rewrite lock_released. by eexists.
Qed.

Lemma set_state_bytes_saved factory s0 s :
  set_state_bytes
    (zip_writestr STATE_ZIP_FILENAME (json_dumps (state_document s0)))
    factory s =
  with_lock (reset;; load_state factory (state_document s0)) s.
Proof.
  destruct (set_state_bytes_cases
              (zip_writestr STATE_ZIP_FILENAME
                 (json_dumps (state_document s0))) factory s)
    as [[e He] | (state & (names & text & Hn & Hin & Ht & Hs) & ->)].
  - exfalso. revert He. unfold set_state_bytes.
    rewrite zip_namelist_writestr. cbn [call_result].
    rewrite bind_lift_ok, decide_True by (by left).
    rewrite zip_read_writestr. cbn [call_result].
    rewrite bind_lift_ok, json_loads_dumps. cbn [call_result].
    rewrite bind_lift_ok. unfold with_lock.
    by destruct ((reset;; load_state factory (state_document s0))
                   (upd_lock S s)) as [[r s1] t1].
  - rewrite zip_read_writestr in Ht. injection Ht as <-.
    rewrite json_loads_dumps in Hs. by injection Hs as <-.
Qed.

(** C4.  When every descriptor of the four adjudication sets has a
    vector and the factory gives, for each of their keys, an element
    with that key and either no vector or the same vector, then
    [get_state_bytes] returns bytes from which [set_state_bytes]
    returns with the four adjudication sets as they were, by key and
    vector, and with the working set, the used seeds, the results, the
    feedback list and the four cached views cleared. *)
Theorem state_bytes_round_trip factory s :
  (forall d, d ∈ adjudicated s -> is_Some (vector d)) ->
  (forall d, d ∈ adjudicated s -> reproduces factory d) ->
  exists b,
    result_of (get_state_bytes s) = Ok b ∧
    let imported :=
      set_state_bytes b factory (state_of (get_state_bytes s)) in
    let s' := state_of imported in
    result_of imported = Ok tt ∧
    positive_descriptors s' = positive_descriptors s ∧
    negative_descriptors s' = negative_descriptors s ∧
    external_positive_descriptors s' = external_positive_descriptors s ∧
    external_negative_descriptors s' = external_negative_descriptors s ∧
    working_set s' = [] ∧
    _wi_seeds_used s' = ∅ ∧
    results s' = None ∧
    feedback_list s' = None ∧
    _ordered_results s' = None ∧
    _ordered_pos s' = None ∧
    _ordered_neg s' = None ∧
    _ordered_non_adj s' = None.
Proof.
  intros Hv Hf.
  destruct (get_state_bytes_ok s Hv) as [t ->]. eexists. cbn.
  split; [reflexivity |].
  rewrite set_state_bytes_saved.
  unfold with_lock, mbind, Op_bind.
  pose proof (reset_state (upd_lock S s)) as Hreset.
  pose proof (reset_returns (upd_lock S s)) as Hret.
  destruct (reset (upd_lock S s)) as [[r0 s0] t0]. cbn in Hreset, Hret.
  subst r0.
  destruct (load_state_ok factory s s0) as [t1 ->].
  { intros d Hd. split; [by apply Hv | by apply Hf]. }
  subst s0. cbn. split_and!; try done; set_solver.
Qed.
End RoundTrip.

(** ** Which calls hold the lock *)

Lemma guarded_app t1 t2 : guarded t1 -> guarded t2 -> guarded (t1 ++ t2).
Proof. unfold guarded. intros. by apply Forall_app. Qed.

Lemma keeps_hold_ret {A} (a : A) : keeps_hold (mret a).
Proof. intros s Hs. split; [constructor | done]. Qed.

Lemma keeps_hold_raise {A} (e : exn) : keeps_hold (@raise A e).
Proof. intros s Hs. split; [constructor | done]. Qed.

Lemma keeps_hold_lift {A} (r : Result A) : keeps_hold (lift r).
Proof. intros s Hs. split; [constructor | done]. Qed.

Lemma keeps_hold_load {A} (attr : IqrSession -> A) : keeps_hold (load attr).
Proof.
  intros s Hs. split; [| done]. repeat constructor. cbn.
  by destruct (lock s); [lia |].
Qed.

Lemma keeps_hold_mutate (upd : IqrSession -> IqrSession) :
  (forall s, lock (upd s) = lock s) -> keeps_hold (mutate upd).
Proof.
  intros Hupd s Hs. split; [| apply Hupd]. repeat constructor. cbn.
  by destruct (lock s); [lia |].
Qed.

Lemma keeps_hold_bind {A B} (m : Op A) (k : A -> Op B) :
  keeps_hold m -> (forall a, keeps_hold (k a)) -> keeps_hold (m ≫= k).
Proof.
  intros Hm Hk s Hs. unfold mbind, Op_bind.
  destruct (Hm s Hs) as [Gm Lm].
  destruct (m s) as [[[a | e] s1] t1]; cbn in *; [| done].
  destruct (Hk a s1) as [Gk Lk]; [lia |].
  destruct (k a s1) as [[r s2] t2]. cbn in *.
  split; [by apply guarded_app | congruence].
Qed.

Lemma keeps_hold_when (b : bool) (m : Op unit) :
  keeps_hold m -> keeps_hold (when b m).
Proof. destruct b; [done |]. intros _. apply keeps_hold_ret. Qed.

Lemma keeps_hold_for_each {X} (l : list X) (body : X -> Op unit) :
  (forall x, keeps_hold (body x)) -> keeps_hold (for_each l body).
Proof.
  intros Hbody. induction l as [| x l IH]; [apply keeps_hold_ret |].
  cbn [for_each]. apply keeps_hold_bind; [apply Hbody | by intros _].
Qed.

Lemma with_lock_self_locking {A} (m : Op A) :
  keeps_hold m -> self_locking (with_lock m).
Proof.
  intros Hm s. unfold with_lock.
  destruct (Hm (upd_lock S s)) as [Gm Lm]; [destruct s; cbn; lia |].
  destruct (m (upd_lock S s)) as [[r s1] t1]. cbn in *.
  split.
  - constructor; [done |]. apply guarded_app; [done |]. by repeat constructor.
  - destruct s1, s. cbn in *. lia.
Qed.

Lemma self_locking_keeps_hold {A} (m : Op A) :
  self_locking m -> keeps_hold m.
Proof. intros Hm s _. apply Hm. Qed.

Lemma self_locking_ret {A} (a : A) : self_locking (mret a).
Proof. intros s. split; [constructor | done]. Qed.

Lemma self_locking_raise {A} (e : exn) : self_locking (@raise A e).
Proof. intros s. split; [constructor | done]. Qed.

Lemma self_locking_lift {A} (r : Result A) : self_locking (lift r).
Proof. intros s. split; [constructor | done]. Qed.

Lemma self_locking_bind {A B} (m : Op A) (k : A -> Op B) :
  self_locking m -> (forall a, self_locking (k a)) ->
  self_locking (m ≫= k).
Proof.
  intros Hm Hk s. unfold mbind, Op_bind.
  destruct (Hm s) as [Gm Lm].
  destruct (m s) as [[[a | e] s1] t1]; cbn in *; [| done].
  destruct (Hk a s1) as [Gk Lk].
  destruct (k a s1) as [[r s2] t2]. cbn in *.
  split; [by apply guarded_app | congruence].
Qed.

Ltac hold :=
  repeat first
    [ apply keeps_hold_ret
    | apply keeps_hold_raise
    | apply keeps_hold_lift
    | apply keeps_hold_load
    | apply keeps_hold_mutate; by intros []
    | apply keeps_hold_when
    | apply keeps_hold_bind; [| intros ?]
    | apply keeps_hold_for_each; intros ?
    | apply self_locking_keeps_hold, with_lock_self_locking
    | match goal with
      | |- keeps_hold (match ?x with _ => _ end) => destruct x
      end ].

Ltac locking :=
  repeat first
    [ apply with_lock_self_locking; hold
    | apply self_locking_ret
    | apply self_locking_raise
    | apply self_locking_lift
    | apply self_locking_bind; [| intros ?]
    | match goal with
      | |- self_locking (match ?x with _ => _ end) => destruct x
      end ].

Lemma reset_self_locking : self_locking reset.
Proof. unfold reset. locking. Qed.

Lemma ordered_results_self_locking : self_locking ordered_results.
Proof. unfold ordered_results. locking. Qed.

Section OtherCalls.
Context `{StateArchive}.

(** Every call of the public interface but [update_working_set] takes
    the lock before it touches the session and gives it back on return
    and on raise, whatever the hold count it is called with. *)
Lemma other_calls_hold_lock c s :
  (forall nn_index, c ≠ CallUpdateWorkingSet nn_index) ->
  guarded (call_events c s) ∧ lock (perform c s) = lock s.
Proof.
  intros Hc. destruct c; cbn [call_events perform].
  - revert s. change (self_locking (external_descriptors positive negative)).
    unfold external_descriptors. locking.
  - revert s.
    change (self_locking (adjudicate new_positives new_negatives
                            un_positives un_negatives)).
    unfold adjudicate. locking.
  - by destruct (Hc nn_index).
  - revert s. change (self_locking refine). unfold refine. locking.
  - apply ordered_results_self_locking.
  - revert s. change (self_locking feedback_results).
    unfold feedback_results. locking.
  - revert s. change (self_locking get_positive_adjudication_relevancy).
    unfold get_positive_adjudication_relevancy. locking.
  - revert s. change (self_locking get_negative_adjudication_relevancy).
    unfold get_negative_adjudication_relevancy. locking.
  - revert s. change (self_locking get_unadjudicated_relevancy).
    unfold get_unadjudicated_relevancy. locking.
  - apply reset_self_locking.
  - revert s. change (self_locking get_state_bytes).
    unfold get_state_bytes. locking.
  - revert s. change (self_locking (set_state_bytes b factory)).
    unfold set_state_bytes. locking.
Qed.
End OtherCalls.

(** ** The properties on the small session *)

(** C3 as the specification states it does not hold: after
    [external_descriptors([d], [d])] on a new session, [d] is not in the
    external negative set. *)
Lemma external_overlap_is_not_negative :
  descriptor "d" ∈ [descriptor "d"] ∧
  ¬ (descriptor "d" ∈ external_negative_descriptors
       (state_of (external_descriptors [descriptor "d"] [descriptor "d"]
                    example_new)) ∧
     descriptor "d" ∉ external_positive_descriptors
       (state_of (external_descriptors [descriptor "d"] [descriptor "d"]
                    example_new))).
Proof.
  split; [by left |]. rewrite external_descriptors_state. cbn.
  intros [Hin _]. set_solver.
Qed.

Lemma external_descriptors_cancels_overlap_witness :
  (descriptor "d" ∉ external_positive_descriptors
     (state_of (external_descriptors [descriptor "d"] [descriptor "d"]
                  example_new))) ∧
  (descriptor "d" ∉ external_negative_descriptors
     (state_of (external_descriptors [descriptor "d"] [descriptor "d"]
                  example_new))) ∧
  result_of (external_descriptors [descriptor "d"] [descriptor "d"]
               example_new) = Ok tt.
Proof.
  apply (external_descriptors_cancels_overlap
           [descriptor "d"] [descriptor "d"] (descriptor "d") example_new);
    constructor.
Defined.

Lemma adjudicate_cancels_overlap_witness :
  (descriptor "A" ∉ positive_descriptors
     (state_of (adjudicate [descriptor "A"] [descriptor "A"] [] []
                  example_grown))) ∧
  (descriptor "A" ∉ negative_descriptors
     (state_of (adjudicate [descriptor "A"] [descriptor "A"] [] []
                  example_grown))).
Proof.
  apply (adjudicate_cancels_overlap
           [descriptor "A"] [descriptor "A"] [] [] (descriptor "A")
           example_grown);
    constructor.
Defined.

Lemma update_working_set_no_positive_witness :
  result_of (update_working_set example_index example_new)
    = Raised no_positive_descriptors ∧
  working_set (state_of (update_working_set example_index example_new))
    = [].
Proof.
  destruct (update_working_set_no_positive example_index example_new)
    as [[_ Hraise] Hsame].
  assert (Hr : result_of (update_working_set example_index example_new)
               = Raised no_positive_descriptors).
  { apply Hraise. vm_compute. reflexivity. }
  split; [exact Hr |]. by destruct (Hsame Hr) as [-> _].
Defined.

Lemma update_working_set_takes_no_lock_witness :
  lock example_adjudicated = 0 ∧
  trace_of (update_working_set example_index example_adjudicated) ≠ [] ∧
  Forall (fun e => e = Access 0)
    (trace_of (update_working_set example_index example_adjudicated)) ∧
  working_set example_grown
    = [("A", descriptor "A"); ("B", descriptor "B"); ("C", descriptor "C")].
Proof.
  destruct (update_working_set_takes_no_lock example_index
              example_adjudicated) as (Hne & Hall & _).
  split_and!; [reflexivity | exact Hne | exact Hall |].
  vm_compute. reflexivity.
Defined.

Lemma refine_empty_working_set_raises_witness :
  result_of (refine example_adjudicated) = Raised nothing_to_unpack ∧
  state_of (refine example_adjudicated) = example_adjudicated.
Proof.
  apply refine_empty_working_set_raises.
  - intros Hempty.
    assert (Hin : descriptor "P1"
                  ∈ positive_descriptors example_adjudicated
                    ∪ external_positive_descriptors example_adjudicated).
    { apply elem_of_union_l. vm_compute. reflexivity. }
    rewrite Hempty in Hin. by apply not_elem_of_empty in Hin.
  - vm_compute. reflexivity.
Defined.


Lemma positive_view_follows_refine_snapshot_witness :
  result_of
    (get_positive_adjudication_relevancy
       (perform_all (H := entry_archive)
          [CallAdjudicate [descriptor "B"] [] [] [];
           CallPositiveRelevancy;
           CallAdjudicate [] [] [descriptor "B"] []]
          (state_of (refine
             (state_of (adjudicate [descriptor "A"] [] [] []
                          example_grown))))))
  = Ok [(descriptor "A", 9 # 10)%Q].
Proof.
  destruct (positive_view_follows_refine_snapshot (H := entry_archive)
              (state_of (adjudicate [descriptor "A"] [] [] []
                           example_grown))
              [CallAdjudicate [descriptor "B"] [] [] [];
               CallPositiveRelevancy;
               CallAdjudicate [] [] [descriptor "B"] []])
    as (_ & _ & rows & _ & -> & ->).
  - vm_compute. reflexivity.
  - reflexivity.
  - vm_compute. reflexivity.
Defined.

Lemma state_bytes_round_trip_witness :
  exists b,
    result_of (get_state_bytes (H := entry_archive) example_adjudicated)
      = Ok b ∧
    positive_descriptors
      (state_of (set_state_bytes (H := entry_archive) b example_factory
                   example_adjudicated))
    = positive_descriptors example_adjudicated.
Proof.
  destruct (state_bytes_round_trip (H := entry_archive) example_factory
              example_adjudicated) as (b & Hb & _ & Hpos & _).
  - intros d Hd.
    assert (Hd' : d = descriptor "P1" ∨ d = descriptor "P2").
    { revert Hd. unfold adjudicated, example_adjudicated.
      destruct (adjudicate_state [descriptor "P1"; descriptor "P2"] [] [] []
                  example_new) as (b1 & b2 & b3 & ->).
      cbn. set_solver. }
    destruct Hd' as [-> | ->]; by eexists.
  - intros d Hd. split; [reflexivity | by left].
  - exists b. split; [exact Hb |].
    rewrite get_state_bytes_state in Hpos. exact Hpos.
Defined.

(** * Further properties of the session *)

(** ** Adjudication and the cached views *)

(** The session after [adjudicate], attribute by attribute. *)
Lemma adjudicate_effect np nn up un s :
  let P' := ((positive_descriptors s ∪ list_to_set np) ∖ list_to_set up)
            ∖ list_to_set nn in
  let N' := ((negative_descriptors s ∪ list_to_set nn) ∖ list_to_set un)
            ∖ list_to_set np in
  state_of (adjudicate np nn up un s) =
  upd_ordered_non_adj
    (fun c => if decide (P' = positive_descriptors s ∧
                         N' = negative_descriptors s) then c else None)
    (upd_ordered_neg
       (fun c => if decide (N' = negative_descriptors s) then c else None)
       (upd_ordered_pos
          (fun c => if decide (P' = positive_descriptors s) then c else None)
          (upd_negative_descriptors (fun _ => N')
             (upd_positive_descriptors (fun _ => P') s)))).
Proof.
  unfold adjudicate. op_unfold. destruct s. cbn.
  repeat (case_bool_decide; cbn); repeat case_decide; try done;
    naive_solver.
Qed.

(** X1.  [adjudicate] drops a cached view exactly when the set behind it
    changed: the positive view when the positive set changed, the negative
    view when the negative set changed, the unadjudicated view when either
    did; it never drops the cached [ordered_results]. *)
Theorem adjudicate_drops_changed_views np nn up un s :
  let s' := state_of (adjudicate np nn up un s) in
  _ordered_results s' = _ordered_results s ∧
  _ordered_pos s' =
    (if decide (positive_descriptors s' = positive_descriptors s)
     then _ordered_pos s else None) ∧
  _ordered_neg s' =
    (if decide (negative_descriptors s' = negative_descriptors s)
     then _ordered_neg s else None) ∧
  _ordered_non_adj s' =
    (if decide (positive_descriptors s' = positive_descriptors s ∧
                negative_descriptors s' = negative_descriptors s)
     then _ordered_non_adj s else None).
Proof. cbn zeta. by rewrite adjudicate_effect. Qed.

(** X2.  Adjudicating again what is already adjudicated changes nothing:
    when the new positives are already positive, the new negatives already
    negative, nothing is withdrawn and the two sets are disjoint, the
    session after [adjudicate] is the session before it, cached views
    included. *)
Theorem adjudicate_same_labels_is_noop np nn s :
  positive_descriptors s ## negative_descriptors s ->
  (forall d, d ∈ np -> d ∈ positive_descriptors s) ->
  (forall d, d ∈ nn -> d ∈ negative_descriptors s) ->
  state_of (adjudicate np nn [] [] s) = s.
Proof.
  intros Hdisj Hp Hn. rewrite adjudicate_effect. cbn zeta.
  assert (Hpos : ((positive_descriptors s ∪ list_to_set np)
                  ∖ list_to_set []) ∖ list_to_set nn
                 = positive_descriptors s) by set_solver.
  assert (Hneg : ((negative_descriptors s ∪ list_to_set nn)
                  ∖ list_to_set []) ∖ list_to_set np
                 = negative_descriptors s) by set_solver.
  destruct s. session_eq. rewrite Hpos, Hneg.
  by rewrite !decide_True by done.
Qed.

(** X3.  [adjudicate] relabels: a new positive that is neither a new
    negative nor withdrawn is positive and not negative after the call,
    whatever it was before, and likewise for a new negative. *)
Theorem adjudicate_relabels np nn up un d s :
  let s' := state_of (adjudicate np nn up un s) in
  (d ∈ np -> d ∉ nn -> d ∉ up ->
   d ∈ positive_descriptors s' ∧ d ∉ negative_descriptors s') ∧
  (d ∈ nn -> d ∉ np -> d ∉ un ->
   d ∈ negative_descriptors s' ∧ d ∉ positive_descriptors s').
Proof.
  cbn zeta.
  destruct (adjudicate_state np nn up un s) as (b1 & b2 & b3 & ->).
  cbn. set_solver.
Qed.

(** X4.  Withdrawal wins over addition in one call: a descriptor listed in
    [un_positives] is not positive after [adjudicate], also when the same
    call lists it as a new positive, and likewise for [un_negatives]; a
    descriptor that no argument lists keeps its labels. *)
Theorem adjudicate_withdrawal_wins np nn up un d s :
  let s' := state_of (adjudicate np nn up un s) in
  (d ∈ up -> d ∉ positive_descriptors s') ∧
  (d ∈ un -> d ∉ negative_descriptors s') ∧
  (d ∉ np -> d ∉ nn -> d ∉ up -> d ∉ un ->
   (d ∈ positive_descriptors s' <-> d ∈ positive_descriptors s) ∧
   (d ∈ negative_descriptors s' <-> d ∈ negative_descriptors s)).
Proof.
  cbn zeta.
  destruct (adjudicate_state np nn up un s) as (b1 & b2 & b3 & ->).
  cbn. set_solver.
Qed.

(** X5.  [external_descriptors] relabels external examples and takes one
    out of a set only when the other argument lists it; it leaves the
    adjudicated sets, the working set, the results, the contributing sets
    and every cached view as they were. *)
Theorem external_descriptors_relabels positive negative d s :
  let s' := state_of (external_descriptors positive negative s) in
  (d ∈ positive -> d ∉ negative ->
   d ∈ external_positive_descriptors s' ∧
   d ∉ external_negative_descriptors s') ∧
  (d ∈ negative -> d ∉ positive ->
   d ∈ external_negative_descriptors s' ∧
   d ∉ external_positive_descriptors s') ∧
  (d ∈ external_positive_descriptors s -> d ∉ negative ->
   d ∈ external_positive_descriptors s') ∧
  (d ∈ external_negative_descriptors s -> d ∉ positive ->
   d ∈ external_negative_descriptors s') ∧
  s' = upd_external_negative_descriptors
         (fun _ => external_negative_descriptors s')
         (upd_external_positive_descriptors
            (fun _ => external_positive_descriptors s') s).
Proof.
  cbn zeta. rewrite external_descriptors_state. cbn.
  split_and!; [set_solver.. |]. by destruct s.
Qed.

(** ** The working set *)

Lemma dict_set_keys {V} (k k' : string) (v : V) (d : list (string * V)) :
  k' ∈ (dict_set k v d).*1 <-> k' = k ∨ k' ∈ d.*1.
Proof.
  induction d as [| [k0 v0] d IH]; cbn.
  - rewrite list_elem_of_singleton. set_solver.
  - destruct (decide (k = k0)) as [-> | Hne]; cbn.
    + rewrite !elem_of_cons. naive_solver.
    + rewrite !elem_of_cons, IH. naive_solver.
Qed.

Lemma dict_set_well_keyed (d : DescriptorElement) t :
  table_well_keyed t -> table_well_keyed (dict_set (uuid d) d t).
Proof.
  intros [Hnd Hk]. induction t as [| [k0 v0] t IH]; cbn.
  - split; [apply NoDup_singleton | by repeat constructor].
  - cbn in Hnd. apply NoDup_cons in Hnd as [Hk0 Hnd].
    apply Forall_cons in Hk as [Hk0' Hk].
    destruct (decide (uuid d = k0)) as [<- | Hne]; cbn.
    + split; [by apply NoDup_cons | by constructor].
    + destruct (IH Hnd Hk) as [IHnd IHk]. split.
      * apply NoDup_cons. split; [| done].
        intros Hin. apply (dict_set_keys (uuid d) k0 d t) in Hin.
        naive_solver.
      * by constructor.
Qed.

Lemma add_many_descriptors_keys ds t k :
  k ∈ (add_many_descriptors ds t).*1 <->
  k ∈ t.*1 ∨ exists d, d ∈ ds ∧ uuid d = k.
Proof.
  unfold add_many_descriptors. revert t.
  induction ds as [| d ds IH]; intros t; cbn.
  - split; [by left |]. intros [Hk | (d & Hd & _)]; [done |].
    by apply elem_of_nil in Hd.
  - rewrite IH, dict_set_keys. split.
    + intros [[-> | Hk] | (d' & Hd' & Hu)].
      * right. exists d. split; [by left | done].
      * by left.
      * right. exists d'. split; [by right | done].
    + intros [Hk | (d' & [-> | Hd']%elem_of_cons & Hu)].
      * left. by right.
      * left. by left.
      * right. by exists d'.
Qed.

Lemma add_many_descriptors_well_keyed ds t :
  table_well_keyed t -> table_well_keyed (add_many_descriptors ds t).
Proof.
  unfold add_many_descriptors. revert t.
  induction ds as [| d ds IH]; intros t Ht; cbn; [done |].
  by apply IH, dict_set_well_keyed.
Qed.

(** What the loop of [update_working_set] leaves behind, whether it ran to
    its end or stopped on a failure of the index. *)
Lemma grow_loop_records nn_index l s :
  let s' := state_of (for_each l (query_seed nn_index) s) in
  (table_well_keyed (working_set s) -> table_well_keyed (working_set s')) ∧
  (forall k, k ∈ (working_set s).*1 -> k ∈ (working_set s').*1) ∧
  (forall u, u ∈ _wi_seeds_used s' ->
     u ∈ _wi_seeds_used s ∨
     exists p neighbors,
       p ∈ l ∧ uuid p = u ∧
       nn_index p (pos_seed_neighbors s) = Some neighbors ∧
       forall n, n ∈ neighbors -> uuid n ∈ (working_set s').*1).
Proof.
  revert s. induction l as [| p l IH]; intros s; cbn zeta.
  - cbn. split_and!; [done | done |]. intros u Hu. by left.
  - rewrite for_each_cons.
    destruct (query_seed_cases nn_index p s)
      as [[Hin ->] | [(Hout & Hnn & ->) | (Hout & ns & Hnn & ->)]].
    + destruct (IH s) as (Hwk & Hkeys & Hseeds).
      destruct (for_each l (query_seed nn_index) s) as [[r s2] t2].
      cbn in *. split_and!; [done | done |].
      intros u Hu. destruct (Hseeds u Hu) as [? | (q & nq & Hq & ?)];
        [by left |].
      right. exists q, nq. split; [by right | done].
    + cbn. split_and!; [done | done |]. intros u Hu. by left.
    + set (s1 := upd_wi_seeds_used _ _).
      destruct (IH s1) as (Hwk & Hkeys & Hseeds).
      destruct (for_each l (query_seed nn_index) s1) as [[r s2] t2].
      cbn in *. split_and!.
      * intros Ht. by apply Hwk, add_many_descriptors_well_keyed.
      * intros k Hk. apply Hkeys, add_many_descriptors_keys. by left.
      * intros u Hu.
        destruct (Hseeds u Hu)
          as [[Hold | ->%elem_of_singleton]%elem_of_union
              | (q & nq & Hq & ?)].
        -- by left.
        -- right. exists p, ns. split_and!; [by left | done | done |].
           intros n Hn. apply Hkeys, add_many_descriptors_keys.
           right. by exists n.
        -- right. exists q, nq. split; [by right | done].
Qed.

Lemma update_working_set_records nn_index s :
  let s' := state_of (update_working_set nn_index s) in
  (table_well_keyed (working_set s) -> table_well_keyed (working_set s')) ∧
  (forall k, k ∈ (working_set s).*1 -> k ∈ (working_set s').*1) ∧
  (forall u, u ∈ _wi_seeds_used s' ->
     u ∈ _wi_seeds_used s ∨
     exists p neighbors,
       p ∈ external_positive_descriptors s ∪ positive_descriptors s ∧
       uuid p = u ∧
       nn_index p (pos_seed_neighbors s) = Some neighbors ∧
       forall n, n ∈ neighbors -> uuid n ∈ (working_set s').*1).
Proof.
  cbn zeta.
  destruct (update_working_set_cases nn_index s) as [[_ ->] | [_ ->]]; cbn.
  - split_and!; [done | done |]. intros u Hu. by left.
  - destruct (grow_loop_records nn_index
                (elements (external_positive_descriptors s
                           ∪ positive_descriptors s)) s)
      as (Hwk & Hkeys & Hseeds).
    split_and!; [done | done |].
    intros u Hu. destruct (Hseeds u Hu) as [? | (p & ns & Hp & ?)];
      [by left |].
    right. exists p, ns. split; [by apply elem_of_elements | done].
Qed.

Section WorkingSetInvariant.
Context `{StateArchive}.

(** The working set after a call: emptied, or grown by
    [update_working_set], or left alone. *)
Lemma perform_working_set c s :
  (working_set (perform c s) = [] ∧ _wi_seeds_used (perform c s) = ∅ ∧
   keeps_working_set c = false) ∨
  (working_set (perform c s) = working_set s ∧
   _wi_seeds_used (perform c s) = _wi_seeds_used s) ∨
  (exists nn_index, c = CallUpdateWorkingSet nn_index).
Proof.
  destruct c; cbn [perform keeps_working_set].
  - right. left. by rewrite external_descriptors_state.
  - right. left.
    by destruct (adjudicate_state new_positives new_negatives
                   un_positives un_negatives s) as (? & ? & ? & ->).
  - right. right. by eexists.
  - right. left.
    destruct (refine_cases s)
      as [(_ & _ & ->) | [(_ & _ & _ & ->) | [(_ & _ & _ & _ & ->) |
          [(? & ? & _ & _ & _ & _ & _ & ->) |
           (? & ? & _ & _ & _ & _ & _ & ->)]]]]; done.
  - right. left. by rewrite ordered_results_state.
  - right. left. by rewrite feedback_results_state.
  - right. left. rewrite positive_relevancy_state.
    destruct (_ordered_pos s); [done |]. by rewrite ordered_results_state.
  - right. left. rewrite negative_relevancy_state.
    destruct (_ordered_neg s); [done |]. by rewrite ordered_results_state.
  - right. left. rewrite unadjudicated_relevancy_state.
    destruct (_ordered_non_adj s); [done |].
    by rewrite ordered_results_state.
  - left. by rewrite reset_state.
  - right. left. by rewrite get_state_bytes_state.
  - destruct (set_state_bytes_state b factory s) as [-> | ->].
    + right. by left.
    + left. by rewrite reset_state.
Qed.

(** X6.  On every session reached from a new one by calls of the public
    interface, the working set holds no key twice and files every
    descriptor under its own key. *)
Theorem working_set_stays_well_keyed rank k uid calls :
  table_well_keyed
    (working_set (perform_all calls (new_session rank k uid))).
Proof.
  induction calls as [| c calls IH] using rev_ind.
  - split; [apply NoDup_nil_2 | constructor].
  - rewrite perform_all_snoc.
    set (s := perform_all calls (new_session rank k uid)) in *.
    destruct (perform_working_set c s)
      as [(-> & _) | [(-> & _) | (nn_index & ->)]].
    + split; [apply NoDup_nil_2 | constructor].
    + exact IH.
    + cbn [perform].
      by apply (update_working_set_records nn_index s).
Qed.

(** X7.  The working set and the used seeds are never pruned: over any
    calls other than [reset] and [set_state_bytes], withdrawn
    adjudications among them, every key of the working set stays in it
    and every used seed stays used. *)
Theorem working_set_is_never_pruned calls s :
  forallb keeps_working_set calls = true ->
  (forall k, k ∈ (working_set s).*1 ->
             k ∈ (working_set (perform_all calls s)).*1) ∧
  _wi_seeds_used s ⊆ _wi_seeds_used (perform_all calls s).
Proof.
  induction calls as [| c calls IH] using rev_ind; intros Hk; [done |].
  rewrite forallb_app in Hk. apply andb_prop in Hk as [Hk Hc].
  cbn in Hc. rewrite andb_true_r in Hc.
  destruct (IH Hk) as [IHk IHs]. rewrite perform_all_snoc.
  set (s1 := perform_all calls s) in *.
  destruct (perform_working_set c s1)
    as [(_ & _ & Hf) | [(-> & ->) | (nn_index & ->)]];
    [congruence | done |].
  cbn [perform].
  destruct (update_working_set_records nn_index s1) as (_ & Hkeys & _).
  destruct (update_working_set_spec nn_index s1)
    as (W & X & Hst & Hsub & _).
  split.
  - intros k' Hk'. by apply Hkeys, IHk.
  - rewrite Hst. cbn. set_solver.
Qed.
End WorkingSetInvariant.

(** X8.  [update_working_set] records a seed only with its neighbours in
    place: every key in the used seeds after the call was there before or
    is the key of a positive example whose neighbours, as the index
    returned them, all have their keys in the working set.  When the call
    returns, the key of every positive example is a used seed. *)
Theorem update_working_set_records_queried_seeds nn_index s :
  let s' := state_of (update_working_set nn_index s) in
  (forall u, u ∈ _wi_seeds_used s' ->
     u ∈ _wi_seeds_used s ∨
     exists p neighbors,
       p ∈ external_positive_descriptors s ∪ positive_descriptors s ∧
       uuid p = u ∧
       nn_index p (pos_seed_neighbors s) = Some neighbors ∧
       forall n, n ∈ neighbors -> uuid n ∈ (working_set s').*1) ∧
  (result_of (update_working_set nn_index s) = Ok tt ->
   forall p, p ∈ external_positive_descriptors s ∪ positive_descriptors s ->
             uuid p ∈ _wi_seeds_used s').
Proof.
  cbn zeta. split; [apply update_working_set_records |].
  destruct (update_working_set_cases nn_index s) as [[_ ->] | [_ ->]];
    [done |].
  cbn. intros Hok p Hp.
  destruct (grow_loop_spec nn_index
              (elements (external_positive_descriptors s
                         ∪ positive_descriptors s)) s)
    as (W & X & Hst & _ & _ & _ & [[_ Hall] | [Hf _]]);
    [| congruence].
  rewrite Hst. cbn. apply Hall. by apply elem_of_elements.
Qed.

(** X9.  When the index fails, [update_working_set] raises the failure and
    leaves the seed it failed on unrecorded, so that a later call asks for
    it again; what earlier seeds of the same call brought in stays. *)
Theorem update_working_set_index_failure nn_index s :
  result_of (update_working_set nn_index s) = Raised nn_failed ->
  let s' := state_of (update_working_set nn_index s) in
  (exists p,
     p ∈ external_positive_descriptors s ∪ positive_descriptors s ∧
     (uuid p ∉ _wi_seeds_used s') ∧
     nn_index p (pos_seed_neighbors s) = None) ∧
  _wi_seeds_used s ⊆ _wi_seeds_used s' ∧
  (forall k, k ∈ (working_set s).*1 -> k ∈ (working_set s').*1).
Proof.
  intros Hr. cbn zeta.
  destruct (update_working_set_records nn_index s) as (_ & Hkeys & _).
  split_and!; [| | exact Hkeys].
  - destruct (update_working_set_cases nn_index s) as [[_ Hs] | [_ Hs]];
      rewrite Hs in *; [done |]. cbn in *.
    destruct (grow_loop_spec nn_index
                (elements (external_positive_descriptors s
                           ∪ positive_descriptors s)) s)
      as (W & X & Hst & _ & _ & _ &
          [[Hok _] | [_ (l1 & p & l2 & Hl & _ & Hp & Hnn)]]);
      [congruence |].
    exists p. split_and!; [| by rewrite Hst | done].
    apply elem_of_elements. rewrite Hl. set_solver.
  - destruct (update_working_set_spec nn_index s)
      as (W & X & -> & Hsub & _). done.
Qed.

(** ** Refinement: when it returns, what it leaves when it raises *)

Lemma dict_get_Some_elem {V} (k : string) (v : V) (d : list (string * V)) :
  dict_get k d = Some v -> (k, v) ∈ d.
Proof.
  induction d as [| [k' v'] d IH]; cbn; [done |].
  destruct (decide (k = k')) as [-> | Hne].
  - intros [= ->]. by left.
  - intros Hd. right. by apply IH.
Qed.

Lemma dict_get_None_key {V} (k : string) (d : list (string * V)) :
  dict_get k d = None -> k ∉ d.*1.
Proof.
  intros Hnone Hin. apply dict_get_is_Some in Hin as [v Hv]. congruence.
Qed.

(** [get_many_descriptors] finds every key or raises on the first one that
    the table does not hold. *)
Lemma get_many_descriptors_cases uuids (t : MemoryDescriptorSet) :
  (exists ds,
     get_many_descriptors uuids t = Ok ds ∧
     (forall u, u ∈ uuids -> u ∈ t.*1) ∧
     Forall2 (fun u d => (u, d) ∈ t) uuids ds) ∨
  (exists u,
     get_many_descriptors uuids t = Raised (KeyError u) ∧
     u ∈ uuids ∧ u ∉ t.*1).
Proof.
  induction uuids as [| u uuids IH]; cbn.
  - left. exists []. split_and!; [done | | constructor].
    intros u Hu. by apply elem_of_nil in Hu.
  - destruct (dict_get u t) as [d |] eqn:Hd.
    + destruct IH as [(ds & -> & Hin & Hall) | (u' & -> & Hu' & Hout)].
      * left. exists (d :: ds). split_and!; [done | |].
        -- intros v [-> | Hv]%elem_of_cons; [| by apply Hin].
           apply list_elem_of_fmap. exists (u, d).
           split; [done | by apply dict_get_Some_elem].
        -- constructor; [by apply dict_get_Some_elem | done].
      * right. exists u'. split_and!; [done | by right | done].
    + right. exists u. split_and!; [done | by left |].
      by apply dict_get_None_key.
Qed.

(** X10.  [refine] returns exactly when there is a positive example, the
    working set is not empty, the ranker answers, and every key of its
    shortlist is a key of the working set. *)
Theorem refine_returns_iff s :
  result_of (refine s) = Ok tt <->
  positive_descriptors s ∪ external_positive_descriptors s ≠ ∅ ∧
  working_set s ≠ [] ∧
  exists ranking,
    ranking_of s = Some ranking ∧
    forall u, u ∈ ranking.2 -> u ∈ (working_set s).*1.
Proof.
  unfold ranking_of.
  destruct (refine_cases s)
    as [(He & Hr & _) | [(Hne & Hws & Hr & _) | [(Hne & Hws & Hrk & Hr & _) |
        [(ranking & e & Hne & Hws & Hrk & Hfb & Hr & _) |
         (ranking & fb & Hne & Hws & Hrk & Hfb & Hr & _)]]]];
    rewrite Hr; split; try done.
  - by intros (? & _).
  - by intros (_ & ? & _).
  - intros (_ & _ & ranking & Hrk' & _). congruence.
  - intros (_ & _ & ranking' & Hrk' & Hin).
    assert (ranking' = ranking) as -> by congruence.
    destruct (get_many_descriptors_ok ranking.2 (working_set s) Hin)
      as [ds Hds].
    congruence.
  - intros _. split_and!; [done | done |]. exists ranking.
    split; [done |].
    destruct (get_many_descriptors_cases ranking.2 (working_set s))
      as [(ds & _ & Hin & _) | (u & Hu & _)]; [done | congruence].
Qed.

(** X11.  [refine] raises its "no positive adjudication" error exactly
    when the union of the positive and the external positive set is
    empty, whether or not there is a working set, and then leaves the
    session as it was. *)
Theorem refine_no_positive_iff s :
  (result_of (refine s) = Raised no_positive_adjudication <->
   positive_descriptors s ∪ external_positive_descriptors s = ∅) ∧
  (positive_descriptors s ∪ external_positive_descriptors s = ∅ ->
   state_of (refine s) = s).
Proof.
  destruct (refine_cases s)
    as [(He & Hr & Hs) | [(Hne & Hws & Hr & _) | [(Hne & Hws & Hrk & Hr & _) |
        [(ranking & e & Hne & Hws & Hrk & Hfb & Hr & _) |
         (ranking & fb & Hne & Hws & Hrk & Hfb & Hr & _)]]]];
    rewrite Hr; (split; [split |]); try done.
  intros Hk. unfold no_positive_adjudication in Hk.
  destruct (get_many_descriptors_cases ranking.2 (working_set s))
    as [(ds & Hds & _) | (u & Hu & _)]; congruence.
Qed.

(** X12.  A [refine] that raises anything but a [KeyError] leaves the
    session as it was: results, feedback list, contributing sets, cached
    views and the hold count of the lock. *)
Theorem refine_raise_leaves_session e s :
  result_of (refine s) = Raised e ->
  (forall k, e ≠ KeyError k) ->
  state_of (refine s) = s.
Proof.
  intros Hraise Hkey.
  destruct (refine_cases s)
    as [(He & Hr & Hs) | [(Hne & Hws & Hr & Hs) |
        [(Hne & Hws & Hrk & Hr & Hs) |
        [(ranking & e' & Hne & Hws & Hrk & Hfb & Hr & _) |
         (ranking & fb & Hne & Hws & Hrk & Hfb & Hr & _)]]]];
    try done.
  - exfalso.
    destruct (get_many_descriptors_cases ranking.2 (working_set s))
      as [(ds & Hds & _) | (u & Hu & _)]; [congruence |].
    apply (Hkey u). congruence.
  - congruence.
Qed.

(** X13.  When the ranker returns a shortlist that names a key which the
    working set does not hold, [refine] raises [KeyError] for such a key
    after it has already stored the new scores: [results] is replaced
    while the feedback list, the contributing sets and the cached views
    stay as they were, so a cached [ordered_results] goes on being
    returned. *)
Theorem refine_stray_shortlist_keeps_new_results ranking s :
  positive_descriptors s ∪ external_positive_descriptors s ≠ ∅ ->
  working_set s ≠ [] ->
  ranking_of s = Some ranking ->
  (exists u, u ∈ ranking.2 ∧ u ∉ (working_set s).*1) ->
  exists k,
    result_of (refine s) = Raised (KeyError k) ∧
    k ∈ ranking.2 ∧
    (k ∉ (working_set s).*1) ∧
    state_of (refine s) =
      upd_results
        (fun _ => Some (dict_of_pairs
                          (zip (iterdescriptors (working_set s)) ranking.1)))
        s ∧
    forall rows,
      _ordered_results s = Some rows ->
      result_of (ordered_results (state_of (refine s))) = Ok rows.
Proof.
  intros Hpos Hpool Hranking (u & Hu & Hstray). unfold ranking_of in Hranking.
  destruct (get_many_descriptors_cases ranking.2 (working_set s))
    as [(ds & Hds & Hall & _) | (k & Hk & Hin & Hout)].
  { by destruct (Hstray (Hall u Hu)). }
  destruct (refine_cases s)
    as [(He & _) | [(_ & Hws & _) | [(_ & _ & Hrk & _) |
        [(ranking' & e' & _ & _ & Hrk & Hfb & Hr & Hs) |
         (ranking' & fb & _ & _ & Hrk & Hfb & _)]]]]; try done.
  - congruence.
  - assert (ranking' = ranking) as -> by congruence.
    assert (e' = KeyError k) as -> by congruence.
    exists k. split_and!; try done.
    intros rows Hrows. rewrite ordered_results_result, Hs.
    unfold current_rows. cbn. by rewrite Hrows.
  - assert (ranking' = ranking) as -> by congruence. congruence.
Qed.

(** ** Refinement: the scores and the feedback list *)

Lemma dict_set_new {K V} `{EqDecision K} (k : K) (v : V) d :
  k ∉ d.*1 -> dict_set k v d = d ++ [(k, v)].
Proof.
  induction d as [| [k' v'] d IH]; cbn; [done |].
  intros Hk. apply not_elem_of_cons in Hk as [Hne Hk].
  destruct (decide (k = k')); [done |]. by rewrite IH.
Qed.

Lemma dict_of_pairs_no_duplicates {K V} `{EqDecision K}
    (pairs : list (K * V)) :
  NoDup pairs.*1 -> dict_of_pairs pairs = pairs.
Proof.
  unfold dict_of_pairs.
  assert (Hgen : forall acc : list (K * V),
            NoDup (acc ++ pairs).*1 ->
            foldl (fun d kv => dict_set kv.1 kv.2 d) acc pairs
            = acc ++ pairs).
  { induction pairs as [| [k v] pairs IH]; intros acc Hnd; cbn.
    - by rewrite app_nil_r.
    - rewrite dict_set_new.
      + rewrite IH; rewrite <- app_assoc; [done |]. exact Hnd.
      + rewrite fmap_app in Hnd. apply NoDup_app in Hnd as (_ & Hd & _).
        intros Hin. apply (Hd k Hin). by left. }
  intros Hnd. by apply (Hgen []).
Qed.

Lemma zip_keys_no_duplicates {A B} (l : list A) (k : list B) :
  NoDup l -> NoDup (zip l k).*1.
Proof.
  revert k. induction l as [| a l IH]; intros k Hnd; [constructor |].
  destruct k as [| b k]; [constructor |]. cbn.
  apply NoDup_cons in Hnd as [Ha Hnd]. apply NoDup_cons. split.
  - intros Hin. apply Ha.
    apply list_elem_of_fmap in Hin as ([a' b'] & -> & Hin).
    by apply elem_of_zip_l in Hin.
  - by apply IH.
Qed.

Lemma well_keyed_descriptors (t : MemoryDescriptorSet) :
  table_well_keyed t -> NoDup (iterdescriptors t).
Proof.
  unfold iterdescriptors. intros [Hnd Hk].
  induction t as [| [k d] t IH]; [constructor |]. cbn in *.
  apply NoDup_cons in Hnd as [Hk0 Hnd].
  apply Forall_cons in Hk as [Hkd Hk]. cbn in Hkd. subst k.
  apply NoDup_cons. split; [| by apply IH].
  intros Hin. apply Hk0.
  apply list_elem_of_fmap in Hin as ([k' d'] & -> & Hin).
  apply list_elem_of_fmap. exists (k', d'). split; [| done].
  rewrite Forall_forall in Hk. symmetry. by apply (Hk (k', d')).
Qed.

(** X14.  On a working set that files every descriptor once, under its own
    key, a [refine] that returns stores one score per descriptor, in the
    order of the working set and with the scores in the order the ranker
    gave them; scores beyond the size of the pool, or descriptors beyond
    the number of scores, are left out without an error. *)
Theorem refine_scores_pool_in_order s :
  table_well_keyed (working_set s) ->
  result_of (refine s) = Ok tt ->
  exists ranking,
    ranking_of s = Some ranking ∧
    results (state_of (refine s)) =
      Some (zip (iterdescriptors (working_set s)) ranking.1) ∧
    working_set (state_of (refine s)) = working_set s.
Proof.
  intros Hwk Hok. unfold ranking_of.
  destruct (refine_cases s)
    as [(_ & Hr & _) | [(_ & _ & Hr & _) | [(_ & _ & _ & Hr & _) |
        [(ranking & e & _ & _ & _ & _ & Hr & _) |
         (ranking & fb & _ & _ & Hrk & _ & _ & ->)]]]];
    try (rewrite Hr in Hok; discriminate).
  exists ranking. split_and!; [done | | done]. cbn.
  rewrite dict_of_pairs_no_duplicates; [done |].
  by apply zip_keys_no_duplicates, well_keyed_descriptors.
Qed.

Lemma feedback_results_result s :
  result_of (feedback_results s) = Ok (default [] (feedback_list s)).
Proof.
  unfold feedback_results. op_unfold. destruct s as [].
  cbn. by repeat (destruct_option; cbn).
Qed.

Section FeedbackCalls.
Context `{StateArchive}.

Lemma keeps_ranking_feedback c s :
  keeps_ranking c = true ->
  feedback_list (perform c s) = feedback_list s.
Proof.
  destruct c; cbn [perform keeps_ranking]; try discriminate; intros _.
  - by rewrite external_descriptors_state.
  - by destruct (adjudicate_state new_positives new_negatives
                   un_positives un_negatives s) as (? & ? & ? & ->).
  - by destruct (update_working_set_spec nn_index s)
      as (W & X & -> & _).
  - by rewrite ordered_results_state.
  - by rewrite feedback_results_state.
  - rewrite positive_relevancy_state.
    destruct (_ordered_pos s); [done |]. by rewrite ordered_results_state.
  - rewrite negative_relevancy_state.
    destruct (_ordered_neg s); [done |]. by rewrite ordered_results_state.
  - rewrite unadjudicated_relevancy_state.
    destruct (_ordered_non_adj s); [done |].
    by rewrite ordered_results_state.
  - by rewrite get_state_bytes_state.
Qed.

Lemma keeps_ranking_feedback_all calls s :
  forallb keeps_ranking calls = true ->
  feedback_list (perform_all calls s) = feedback_list s.
Proof.
  induction calls as [| c calls IH] using rev_ind; intros Hk; [done |].
  rewrite forallb_app in Hk. apply andb_prop in Hk as [Hk Hc].
  cbn in Hc. rewrite andb_true_r in Hc.
  rewrite perform_all_snoc, keeps_ranking_feedback by done. by apply IH.
Qed.

(** X15.  After a [refine] that returned on a well-keyed working set, and
    after any further calls other than [refine], [reset] and
    [set_state_bytes], [feedback_results] returns the descriptors that
    the working set held at that refine under the keys of the ranker's
    shortlist, in the ranker's order and not by score. *)
Theorem feedback_results_follow_shortlist s calls :
  table_well_keyed (working_set s) ->
  result_of (refine s) = Ok tt ->
  forallb keeps_ranking calls = true ->
  exists ranking feedback,
    ranking_of s = Some ranking ∧
    result_of (feedback_results (perform_all calls (state_of (refine s))))
      = Ok feedback ∧
    uuid <$> feedback = ranking.2 ∧
    forall d, d ∈ feedback -> d ∈ iterdescriptors (working_set s).
Proof.
  intros [_ Hkeys] Hok Hk. unfold ranking_of.
  rewrite feedback_results_result, keeps_ranking_feedback_all by done.
  destruct (refine_cases s)
    as [(_ & Hr & _) | [(_ & _ & Hr & _) | [(_ & _ & _ & Hr & _) |
        [(ranking & e & _ & _ & _ & _ & Hr & _) |
         (ranking & fb & _ & _ & Hrk & Hfb & _ & ->)]]]];
    try (rewrite Hr in Hok; discriminate).
  exists ranking, fb. cbn. split_and!; [done | done | |].
  - destruct (get_many_descriptors_cases ranking.2 (working_set s))
      as [(ds & Hds & _ & Hall) | (u & Hu & _)]; [| congruence].
    assert (ds = fb) as -> by congruence.
    clear -Hall Hkeys. rewrite Forall_forall in Hkeys.
    induction Hall as [| u d us ds Hud Hall IH]; [done |]. cbn.
    f_equal; [| exact IH]. symmetry. by apply (Hkeys (u, d)).
  - destruct (get_many_descriptors_cases ranking.2 (working_set s))
      as [(ds & Hds & _ & Hall) | (u & Hu & _)]; [| congruence].
    assert (ds = fb) as -> by congruence.
    intros d Hd. unfold iterdescriptors.
    apply list_elem_of_lookup in Hd as [i Hi].
    destruct (Forall2_lookup_r _ _ _ _ _ Hall Hi) as (u & _ & Hud).
    apply list_elem_of_fmap. by exists (u, d).
Qed.
End FeedbackCalls.

(** ** The negative and the unadjudicated view *)

Lemma negative_relevancy_result s :
  result_of (get_negative_adjudication_relevancy s) =
  Ok match _ordered_neg s with
     | Some r => r
     | None =>
         filter (fun t => t.1 ∈ rank_contrib_neg s ∪ rank_contrib_neg_ext s)
                (current_rows s)
     end.
Proof.
  unfold get_negative_adjudication_relevancy. op_unfold. cbn.
  destruct (_ordered_neg s); cbn; [done |].
  destruct (ordered_results_run (upd_lock S s)) as [t ->]. done.
Qed.

Lemma unadjudicated_relevancy_result s :
  result_of (get_unadjudicated_relevancy s) =
  Ok match _ordered_non_adj s with
     | Some r => r
     | None =>
         filter (fun t => t.1 ∉ rank_contrib_pos s ∪ rank_contrib_pos_ext s
                                  ∪ rank_contrib_neg s
                                  ∪ rank_contrib_neg_ext s)
                (current_rows s)
     end.
Proof.
  unfold get_unadjudicated_relevancy. op_unfold. cbn.
  destruct (_ordered_non_adj s); cbn; [done |].
  destruct (ordered_results_run (upd_lock S s)) as [t ->]. done.
Qed.

(** What the three filtered views return on a session with coherent
    caches. *)
Lemma coherent_views s :
  views_coherent s ->
  result_of (get_positive_adjudication_relevancy s) =
    Ok (filter (fun t => t.1 ∈ rank_contrib_pos s ∪ rank_contrib_pos_ext s)
               (ranked_rows s)) ∧
  result_of (get_negative_adjudication_relevancy s) =
    Ok (filter (fun t => t.1 ∈ rank_contrib_neg s ∪ rank_contrib_neg_ext s)
               (ranked_rows s)) ∧
  result_of (get_unadjudicated_relevancy s) =
    Ok (filter (fun t => t.1 ∉ rank_contrib_pos s ∪ rank_contrib_pos_ext s
                                 ∪ rank_contrib_neg s
                                 ∪ rank_contrib_neg_ext s)
               (ranked_rows s)) ∧
  result_of (ordered_results s) = Ok (ranked_rows s).
Proof.
  intros Hs. pose proof (coherent_current_rows s Hs) as Hrows.
  destruct Hs as (_ & Hp & Hn & Hu).
  rewrite positive_relevancy_result, negative_relevancy_result,
    unadjudicated_relevancy_result, ordered_results_result, Hrows.
  split_and!; [| | | done]; f_equal.
  - destruct (_ordered_pos s) as [r |]; [by apply Hp | done].
  - destruct (_ordered_neg s) as [r |]; [by apply Hn | done].
  - destruct (_ordered_non_adj s) as [r |]; [by apply Hu | done].
Qed.

Lemma refine_snapshot s :
  result_of (refine s) = Ok tt ->
  views_coherent (state_of (refine s)) ∧
  rank_contrib_pos (state_of (refine s)) = positive_descriptors s ∧
  rank_contrib_pos_ext (state_of (refine s))
    = external_positive_descriptors s ∧
  rank_contrib_neg (state_of (refine s)) = negative_descriptors s ∧
  rank_contrib_neg_ext (state_of (refine s))
    = external_negative_descriptors s.
Proof.
  intros Hok.
  destruct (refine_cases s)
    as [(_ & Hr & _) | [(_ & _ & Hr & _) | [(_ & _ & _ & Hr & _) |
        [(ranking & e & _ & _ & _ & _ & Hr & _) |
         (ranking & fb & _ & _ & _ & _ & _ & ->)]]]];
    try (rewrite Hr in Hok; discriminate).
  split; [by apply no_caches_coherent | done].
Qed.

Section Views.
Context `{StateArchive}.

(** The three filtered views after a refine that returned and further
    calls that keep its ranking. *)
Lemma views_after_refine s calls :
  result_of (refine s) = Ok tt ->
  forallb keeps_ranking calls = true ->
  let s1 := state_of (refine s) in
  let s2 := perform_all calls s1 in
  views_coherent s2 ∧ ranked_rows s2 = ranked_rows s1 ∧
  rank_contrib_pos s2 = positive_descriptors s ∧
  rank_contrib_pos_ext s2 = external_positive_descriptors s ∧
  rank_contrib_neg s2 = negative_descriptors s ∧
  rank_contrib_neg_ext s2 = external_negative_descriptors s.
Proof.
  intros Hok Hk s1 s2.
  destruct (refine_snapshot s Hok) as (Hcoh1 & Hp & Hpe & Hn & Hne).
  destruct (keeps_ranking_all calls s1 Hk)
    as ((Hres & Fp & Fpe & Fn & Fne) & _ & Hcoh).
  fold s1 in Hp, Hpe, Hn, Hne, Hcoh1. fold s2 in Hres, Fp, Fpe, Fn, Fne, Hcoh.
  split_and!; [by apply Hcoh | | congruence..].
  unfold ranked_rows. by rewrite Hres.
Qed.

(** X16.  After a [refine] that returned, and after any further calls
    other than [refine], [reset] and [set_state_bytes],
    [get_negative_adjudication_relevancy] returns exactly the rows of
    that refinement whose descriptor was in the negative or the external
    negative set at that [refine]. *)
Theorem negative_view_follows_refine_snapshot s calls :
  result_of (refine s) = Ok tt ->
  forallb keeps_ranking calls = true ->
  let s2 := perform_all calls (state_of (refine s)) in
  result_of (get_negative_adjudication_relevancy s2) =
  Ok (filter (fun t => t.1 ∈ negative_descriptors s
                             ∪ external_negative_descriptors s)
             (ranked_rows (state_of (refine s)))).
Proof.
  intros Hok Hk s2. unfold s2.
  destruct (views_after_refine s calls Hok Hk)
    as (Hcoh & Hrows & _ & _ & Hn & Hne).
  destruct (coherent_views _ Hcoh) as (_ & -> & _).
  by rewrite Hrows, Hn, Hne.
Qed.

(** X17.  After a [refine] that returned, and after any further calls
    other than [refine], [reset] and [set_state_bytes],
    [get_unadjudicated_relevancy] returns exactly the rows of that
    refinement whose descriptor was in none of the four adjudication
    sets at that [refine]: a row adjudicated since then stays in the
    unadjudicated view until the next [refine]. *)
Theorem unadjudicated_view_follows_refine_snapshot s calls :
  result_of (refine s) = Ok tt ->
  forallb keeps_ranking calls = true ->
  let s2 := perform_all calls (state_of (refine s)) in
  result_of (get_unadjudicated_relevancy s2) =
  Ok (filter (fun t => t.1 ∉ positive_descriptors s
                             ∪ external_positive_descriptors s
                             ∪ negative_descriptors s
                             ∪ external_negative_descriptors s)
             (ranked_rows (state_of (refine s)))).
Proof.
  intros Hok Hk s2. unfold s2.
  destruct (views_after_refine s calls Hok Hk)
    as (Hcoh & Hrows & Hp & Hpe & Hn & Hne).
  destruct (coherent_views _ Hcoh) as (_ & _ & -> & _).
  by rewrite Hrows, Hp, Hpe, Hn, Hne.
Qed.

(** X18.  On every session reached from a new one by calls of the public
    interface, with a ranker whose shortlist is made of pool keys, the
    three filtered views split [ordered_results]: each of them returns
    rows of [ordered_results] only, and a row of [ordered_results] is in
    the unadjudicated view exactly when it is in neither the positive
    nor the negative view. *)
Theorem views_split_ordered_results rank k uid calls :
  shortlist_in_pool rank ->
  let s := perform_all calls (new_session rank k uid) in
  exists rows pos neg unadjudicated,
    result_of (ordered_results s) = Ok rows ∧
    result_of (get_positive_adjudication_relevancy s) = Ok pos ∧
    result_of (get_negative_adjudication_relevancy s) = Ok neg ∧
    result_of (get_unadjudicated_relevancy s) = Ok unadjudicated ∧
    (forall t, t ∈ pos ∨ t ∈ neg ∨ t ∈ unadjudicated -> t ∈ rows) ∧
    (forall t, t ∈ rows ->
       t ∈ unadjudicated <-> (t ∉ pos) ∧ (t ∉ neg)).
Proof.
  intros Hrank s.
  destruct (reachable_coherent rank k uid calls Hrank) as [Hs _].
  fold s in Hs.
  destruct (coherent_views s Hs) as (Hp & Hn & Hu & Hr).
  eexists _, _, _, _. split_and!; [done | done | done | done | |].
  - intros t. rewrite !list_elem_of_filter. naive_solver.
  - intros t Ht. rewrite !list_elem_of_filter. set_solver.
Qed.
End Views.

(** ** Reset *)

(** X19.  [reset] brings any session back to the state of a new session
    with the same identifier, number of neighbours per seed and ranker
    (and the caller's hold count of the lock): afterwards the four views
    and [feedback_results] return empty lists, and [update_working_set]
    and [refine] raise for want of a positive example. *)
Theorem reset_returns_to_new_session nn_index s :
  let s' := state_of (reset s) in
  s' = upd_lock (fun _ => lock s)
         (new_session (rank_relevancy_with_feedback s)
                      (pos_seed_neighbors s) (session_uid s)) ∧
  result_of (ordered_results s') = Ok [] ∧
  result_of (get_positive_adjudication_relevancy s') = Ok [] ∧
  result_of (get_negative_adjudication_relevancy s') = Ok [] ∧
  result_of (get_unadjudicated_relevancy s') = Ok [] ∧
  result_of (feedback_results s') = Ok [] ∧
  result_of (update_working_set nn_index s')
    = Raised no_positive_descriptors ∧
  result_of (refine s') = Raised no_positive_adjudication.
Proof.
  cbn zeta. rewrite reset_state.
  set (s' := Build_IqrSession _ _ _ _ _ _ _ _ _ _ _ _ _ _ _ _ _ _ _ _).
  assert (Hcoh : views_coherent s') by (by apply no_caches_coherent).
  destruct (coherent_views s' Hcoh) as (Hp & Hn & Hu & Hr).
  split_and!; [done | by rewrite Hr | by rewrite Hp | by rewrite Hn
               | by rewrite Hu | by rewrite feedback_results_result | |].
  - destruct (update_working_set_cases nn_index s') as [[_ ->] | [Hne _]];
      [done |].
    exfalso. apply Hne. subst s'. cbn. set_solver.
  - destruct (refine_cases s')
      as [(_ & -> & _) | [(Hne & _) | [(Hne & _) |
          [(? & ? & Hne & _) | (? & ? & Hne & _)]]]]; [done | ..];
      exfalso; apply Hne; subst s'; cbn; set_solver.
Qed.

(** ** The state codec: errors and what an import leaves *)

Lemma load_descriptor_cases factory entry :
  (consistent factory entry ∧
   load_descriptor factory entry.1 entry.2 = Ok (loaded factory entry)) ∨
  (¬ consistent factory entry ∧
   load_descriptor factory entry.1 entry.2 = Raised vectors_mismatch).
Proof.
  unfold consistent, loaded, load_descriptor.
  destruct (vector (factory entry.1)) as [v |]; [| by left].
  destruct (decide (v = entry.2)); [by left | by right].
Qed.

Lemma load_entries_cases factory entries target s :
  (Forall (consistent factory) entries ∧
   exists t,
     load_entries factory entries target s =
     (Ok tt,
      foldl (fun s d => target (fun X => X ∪ {[d]}) s) s
            (loaded factory <$> entries),
      t)) ∨
  (¬ Forall (consistent factory) entries ∧
   result_of (load_entries factory entries target s)
   = Raised vectors_mismatch).
Proof.
  unfold load_entries. revert s.
  induction entries as [| entry entries IH]; intros s.
  - left. split; [constructor | by eexists].
  - rewrite for_each_cons. cbn beta.
    destruct (load_descriptor_cases factory entry) as [[Hc ->] | [Hc ->]].
    + rewrite bind_lift_ok. unfold mutate at 1.
      destruct (IH (target (fun X => X ∪ {[loaded factory entry]}) s))
        as [[Hall [t ->]] | [Hnot Hr]].
      * left. split; [by constructor | by eexists].
      * right. split; [by intros [_ ?]%Forall_cons |].
        revert Hr. unfold mbind, Op_bind. cbn.
        destruct (for_each entries _ _) as [[r s2] t2]. cbn. by intros ->.
    + right. split; [by intros [? _]%Forall_cons | done].
Qed.

Lemma load_state_cases factory state ep en p n s :
  has_members state ep en p n ->
  (Forall (consistent factory) (ep ++ en ++ p ++ n) ∧
   exists t,
     load_state factory state s =
     (Ok tt,
      upd_negative_descriptors
        (fun X => X ∪ list_to_set (loaded factory <$> n))
        (upd_positive_descriptors
           (fun X => X ∪ list_to_set (loaded factory <$> p))
           (upd_external_negative_descriptors
              (fun X => X ∪ list_to_set (loaded factory <$> en))
              (upd_external_positive_descriptors
                 (fun X => X ∪ list_to_set (loaded factory <$> ep)) s))),
      t)) ∨
  (¬ Forall (consistent factory) (ep ++ en ++ p ++ n) ∧
   result_of (load_state factory state s) = Raised vectors_mismatch).
Proof.
  intros (Hep & Hen & Hp & Hn). unfold load_state.
  rewrite Hep, Hen, Hp, Hn, !bind_lift_ok. cbn [for_each fst snd].
  rewrite !Forall_app.
  destruct (load_entries_cases factory ep
              upd_external_positive_descriptors s) as [[C1 [t1 R1]] | [C1 R1]].
  2: { right. split; [naive_solver |]. unfold mbind, Op_bind.
       destruct (load_entries factory ep _ s) as [[r1 s1] t1].
       cbn in R1. by subst r1. }
  rewrite fill_external_positive in R1.
  set (s1 := upd_external_positive_descriptors _ s) in *.
  destruct (load_entries_cases factory en
              upd_external_negative_descriptors s1)
    as [[C2 [t2 R2]] | [C2 R2]].
  2: { right. split; [naive_solver |]. unfold mbind, Op_bind.
       rewrite R1.
       destruct (load_entries factory en _ s1) as [[r2 s2] t2].
       cbn in R2. by subst r2. }
  rewrite fill_external_negative in R2.
  set (s2 := upd_external_negative_descriptors _ s1) in *.
  destruct (load_entries_cases factory p upd_positive_descriptors s2)
    as [[C3 [t3 R3]] | [C3 R3]].
  2: { right. split; [naive_solver |]. unfold mbind, Op_bind.
       rewrite R1, R2.
       destruct (load_entries factory p _ s2) as [[r3 s3] t3].
       cbn in R3. by subst r3. }
  rewrite fill_positive in R3.
  set (s3 := upd_positive_descriptors _ s2) in *.
  destruct (load_entries_cases factory n upd_negative_descriptors s3)
    as [[C4 [t4 R4]] | [C4 R4]].
  2: { right. split; [naive_solver |]. unfold mbind, Op_bind.
       rewrite R1, R2, R3.
       destruct (load_entries factory n _ s3) as [[r4 s4] t4].
       cbn in R4. by subst r4. }
  rewrite fill_negative in R4.
  left. split; [done |].
  unfold mbind, Op_bind. rewrite R1, R2, R3, R4. cbn. by eexists.
Qed.

(** What [load_state] can return. *)
Lemma load_state_results factory state s :
  result_of (load_state factory state s) = Ok tt ∨
  result_of (load_state factory state s) = Raised vectors_mismatch ∨
  exists name, result_of (load_state factory state s)
               = Raised (KeyError name).
Proof.
  destruct (state_item state "external_pos") as [ep | e] eqn:Hep.
  2: { right. right. unfold load_state. rewrite Hep. cbn.
       unfold state_item in Hep. destruct (dict_get _ _); [done |].
       injection Hep as <-. by eexists. }
  destruct (state_item state "external_neg") as [en | e] eqn:Hen.
  2: { right. right. unfold load_state. rewrite Hep, bind_lift_ok, Hen. cbn.
       unfold state_item in Hen. destruct (dict_get _ _); [done |].
       injection Hen as <-. by eexists. }
  destruct (state_item state "pos") as [p | e] eqn:Hp.
  2: { right. right. unfold load_state.
       rewrite Hep, bind_lift_ok, Hen, bind_lift_ok, Hp. cbn.
       unfold state_item in Hp. destruct (dict_get _ _); [done |].
       injection Hp as <-. by eexists. }
  destruct (state_item state "neg") as [n | e] eqn:Hn.
  2: { right. right. unfold load_state.
       rewrite Hep, bind_lift_ok, Hen, bind_lift_ok, Hp, bind_lift_ok, Hn.
       cbn. unfold state_item in Hn. destruct (dict_get _ _); [done |].
       injection Hn as <-. by eexists. }
  destruct (load_state_cases factory state ep en p n s)
    as [[_ [t ->]] | [_ ->]]; [done | by left | right; by left].
Qed.

Lemma reset_then_run (m : Op unit) s :
  result_of (with_lock (reset;; m) s)
    = result_of (m (state_of (reset (upd_lock S s)))) ∧
  state_of (with_lock (reset;; m) s)
    = upd_lock Nat.pred (state_of (m (state_of (reset (upd_lock S s))))).
Proof.
  unfold with_lock, mbind, Op_bind.
  pose proof (reset_returns (upd_lock S s)) as Hr.
  destruct (reset (upd_lock S s)) as [[r s1] t1]. cbn in Hr. subst r.
  cbn. by destruct (m s1) as [[r2 s2] t2].
Qed.

Section CodecErrors.
Context `{StateArchive}.

Lemma set_state_bytes_parsed b factory s :
  match parsed_state b with
  | Some state =>
      set_state_bytes b factory s =
      with_lock (reset;; load_state factory state) s
  | None =>
      state_of (set_state_bytes b factory s) = s ∧
      ((exists names, zip_namelist b = Some names ∧
                      (STATE_ZIP_FILENAME ∉ names) ∧
                      result_of (set_state_bytes b factory s)
                      = Raised invalid_bytes) ∨
       (exists who, result_of (set_state_bytes b factory s)
                    = Raised (CollaboratorError who) ∧
                    forall names, zip_namelist b = Some names ->
                                  STATE_ZIP_FILENAME ∈ names))
  end.
Proof.
  unfold parsed_state, set_state_bytes.
  destruct (zip_namelist b) as [names |] eqn:Hnames; cbn [call_result].
  2: { split; [done |]. right. by eexists. }
  rewrite bind_lift_ok.
  destruct (decide (STATE_ZIP_FILENAME ∈ names)) as [Hin | Hout].
  2: { split; [done |]. left. by exists names. }
  destruct (zip_read b STATE_ZIP_FILENAME) as [text |] eqn:Htext;
    cbn [call_result].
  2: { split; [done |]. right. eexists. split; [done |].
       by intros ? [= <-]. }
  rewrite bind_lift_ok.
  destruct (json_loads text) as [state |] eqn:Hstate; cbn [call_result].
  2: { split; [done |]. right. eexists. split; [done |].
       by intros ? [= <-]. }
  by rewrite bind_lift_ok.
Qed.

(** X20.  [set_state_bytes] raises its "invalid bytes" error exactly
    when the bytes are an archive without the state entry; and when the
    archive cannot be opened, has no state entry, or its state entry
    cannot be read, the call raises before it takes the lock and leaves
    the session as it was. *)
Theorem set_state_bytes_malformed b factory s :
  (result_of (set_state_bytes b factory s) = Raised invalid_bytes <->
   exists names, zip_namelist b = Some names ∧
                 STATE_ZIP_FILENAME ∉ names) ∧
  (zip_namelist b = None ∨
   (exists names, zip_namelist b = Some names ∧
                  STATE_ZIP_FILENAME ∉ names) ∨
   zip_read b STATE_ZIP_FILENAME = None ->
   set_state_bytes b factory s
     = (result_of (set_state_bytes b factory s), s, []) ∧
   exists e, result_of (set_state_bytes b factory s) = Raised e).
Proof.
  split.
  - pose proof (set_state_bytes_parsed b factory s) as Hp.
    destruct (parsed_state b) as [state |] eqn:Hparsed.
    + rewrite Hp. split.
      * intros Hr. exfalso.
        destruct (reset_then_run (load_state factory state) s)
          as [Hres _].
        rewrite Hres in Hr.
        destruct (load_state_results factory state
                    (state_of (reset (upd_lock S s))))
          as [Hl | [Hl | [name Hl]]]; rewrite Hl in Hr; discriminate.
      * intros (names & Hnames & Hout). exfalso.
        unfold parsed_state in Hparsed. rewrite Hnames in Hparsed.
        by rewrite decide_False in Hparsed.
    + destruct Hp as [Hs [(names & Hn & Hout & Hr) | (who & Hr & Hin)]].
      * split; [by exists names | done].
      * rewrite Hr. split; [done |].
        intros (names & Hn & Hout). exfalso. by apply Hout, Hin.
  - intros Hbad. unfold set_state_bytes.
    destruct (zip_namelist b) as [names |] eqn:Hnames; cbn [call_result].
    2: { split; [done | by eexists]. }
    rewrite bind_lift_ok.
    destruct (decide (STATE_ZIP_FILENAME ∈ names)) as [Hin | Hout].
    2: { split; [done | by eexists]. }
    destruct Hbad as [? | [(names' & [= <-] & Hout) | Hread]];
      [done | done |].
    rewrite Hread. cbn [call_result]. split; [done | by eexists].
Qed.

(** X21.  Once [set_state_bytes] has read a state document from the
    bytes, it resets the session before it loads anything: whether it
    then returns or raises, the working set, the used seeds, the
    results, the feedback list, the contributing sets and the four
    cached views are cleared, and the identifier, the number of
    neighbours per seed, the ranker and the hold count are kept. *)
Theorem set_state_bytes_resets_first b factory state s :
  parsed_state b = Some state ->
  let s' := state_of (set_state_bytes b factory s) in
  working_set s' = [] ∧ _wi_seeds_used s' = ∅ ∧
  results s' = None ∧ feedback_list s' = None ∧
  rank_contrib_pos s' = ∅ ∧ rank_contrib_pos_ext s' = ∅ ∧
  rank_contrib_neg s' = ∅ ∧ rank_contrib_neg_ext s' = ∅ ∧
  _ordered_results s' = None ∧ _ordered_pos s' = None ∧
  _ordered_neg s' = None ∧ _ordered_non_adj s' = None ∧
  session_uid s' = session_uid s ∧
  pos_seed_neighbors s' = pos_seed_neighbors s ∧
  rank_relevancy_with_feedback s' = rank_relevancy_with_feedback s ∧
  lock s' = lock s.
Proof.
  intros Hparsed. cbn zeta.
  pose proof (set_state_bytes_parsed b factory s) as Hp.
  rewrite Hparsed in Hp. rewrite Hp, reset_then_state.
  pose proof (load_state_frame factory state
                (state_of (reset (upd_lock S s)))) as Hf.
  revert Hf. rewrite reset_state. unfold same_but_adjudications.
  match goal with
  | |- context [state_of ?r] => generalize (state_of r)
  end.
  intros s' ->. by destruct s.
Qed.
End CodecErrors.

Lemma d_list_to_list_cases ds :
  (d_list_to_list ds = Ok (entry_of <$> ds) ∧
   forall d, d ∈ ds -> is_Some (vector d)) ∨
  (d_list_to_list ds = Raised no_tolist ∧
   exists d, d ∈ ds ∧ vector d = None).
Proof.
  induction ds as [| d ds IH].
  - left. split; [done |]. by intros d ?%elem_of_nil.
  - cbn. destruct (vector d) as [v |] eqn:Hv.
    2: { right. split; [done |]. exists d. split; [by left | done]. }
    destruct IH as [[-> Hall] | [-> (d' & Hd' & Hnone)]].
    + left. split.
      * do 2 f_equal. unfold entry_of. by rewrite Hv.
      * intros d' [-> | Hd']%elem_of_cons; [by eexists | by apply Hall].
    + right. split; [done |]. exists d'. split; [by right | done].
Qed.

Lemma d_set_to_list_cases (X : gset DescriptorElement) :
  (d_set_to_list X = Ok (entry_of <$> elements X) ∧
   forall d, d ∈ X -> is_Some (vector d)) ∨
  (d_set_to_list X = Raised no_tolist ∧
   exists d, d ∈ X ∧ vector d = None).
Proof.
  unfold d_set_to_list.
  destruct (d_list_to_list_cases (elements X))
    as [[-> Hall] | [-> (d & Hd & Hnone)]].
  - left. split; [done |]. intros d Hd. by apply Hall, elem_of_elements.
  - right. split; [done |]. exists d. by rewrite <- elem_of_elements.
Qed.

Section CodecEffects.
Context `{StateArchive}.

Lemma import_effect b factory state ep en p n s :
  parsed_state b = Some state ->
  has_members state ep en p n ->
  let imported := set_state_bytes b factory s in
  (Forall (consistent factory) (ep ++ en ++ p ++ n) ∧
   result_of imported = Ok tt ∧
   external_positive_descriptors (state_of imported)
     = list_to_set (loaded factory <$> ep) ∧
   external_negative_descriptors (state_of imported)
     = list_to_set (loaded factory <$> en) ∧
   positive_descriptors (state_of imported)
     = list_to_set (loaded factory <$> p) ∧
   negative_descriptors (state_of imported)
     = list_to_set (loaded factory <$> n)) ∨
  (¬ Forall (consistent factory) (ep ++ en ++ p ++ n) ∧
   result_of imported = Raised vectors_mismatch).
Proof.
  intros Hparsed Hm. cbn zeta.
  pose proof (set_state_bytes_parsed b factory s) as Hp.
  rewrite Hparsed in Hp. rewrite Hp.
  destruct (reset_then_run (load_state factory state) s) as [-> ->].
  destruct (load_state_cases factory state ep en p n
              (state_of (reset (upd_lock S s))) Hm)
    as [[Hall [t ->]] | [Hnot ->]]; [left | by right].
  split; [done |]. split; [done |].
  rewrite reset_state. cbn. split_and!; set_solver.
Qed.

(** X22.  Once [set_state_bytes] has read a state document with its four
    lists, it returns exactly when, for every entry of the four lists,
    the factory's element for the key has no vector yet or has the
    vector of the entry; otherwise it raises the assertion error on
    mismatching vectors.  When it returns, each adjudication set is the
    set of descriptors loaded from its list. *)
Theorem set_state_bytes_returns_iff b factory state ep en p n s :
  parsed_state b = Some state ->
  has_members state ep en p n ->
  let imported := set_state_bytes b factory s in
  (result_of imported = Ok tt <->
   Forall (consistent factory) (ep ++ en ++ p ++ n)) ∧
  (result_of imported <> Ok tt ->
   result_of imported = Raised vectors_mismatch) ∧
  (result_of imported = Ok tt ->
   external_positive_descriptors (state_of imported)
     = list_to_set (loaded factory <$> ep) ∧
   external_negative_descriptors (state_of imported)
     = list_to_set (loaded factory <$> en) ∧
   positive_descriptors (state_of imported)
     = list_to_set (loaded factory <$> p) ∧
   negative_descriptors (state_of imported)
     = list_to_set (loaded factory <$> n)).
Proof.
  intros Hparsed Hm. cbn zeta.
  destruct (import_effect b factory state ep en p n s Hparsed Hm)
    as [(Hall & Hr & Hsets) | (Hnot & Hr)]; rewrite Hr.
  - split_and!; done.
  - split_and!; [split |..]; done.
Qed.

(** X23.  [set_state_bytes] does not keep the positive and negative
    sets disjoint: an entry that the document lists both under "pos"
    and under "neg" is, after an import that returns, a member of both
    the positive and the negative set. *)
Theorem set_state_bytes_keeps_overlap
    b factory state ep en p n entry s :
  parsed_state b = Some state ->
  has_members state ep en p n ->
  result_of (set_state_bytes b factory s) = Ok tt ->
  entry ∈ p -> entry ∈ n ->
  loaded factory entry
    ∈ positive_descriptors (state_of (set_state_bytes b factory s)) ∧
  loaded factory entry
    ∈ negative_descriptors (state_of (set_state_bytes b factory s)).
Proof.
  intros Hparsed Hm Hr Hp Hn.
  destruct (import_effect b factory state ep en p n s Hparsed Hm)
    as [(_ & _ & _ & _ & -> & ->) | (_ & Hr')].
  - split; apply elem_of_list_to_set, list_elem_of_fmap; by exists entry.
  - rewrite Hr in Hr'. discriminate.
Qed.

(** X24.  [get_state_bytes] raises the attribute error of a missing
    vector exactly when some descriptor of the four adjudication sets
    has no vector; it raises nothing else, and it returns the archive
    of the state document otherwise.  It never changes the session. *)
Theorem get_state_bytes_raises_iff s :
  (result_of (get_state_bytes s) = Raised no_tolist <->
   exists d, d ∈ adjudicated s ∧ vector d = None) ∧
  (result_of (get_state_bytes s)
     = Ok (zip_writestr STATE_ZIP_FILENAME (json_dumps (state_document s)))
   <-> forall d, d ∈ adjudicated s -> is_Some (vector d)) ∧
  (forall e, result_of (get_state_bytes s) = Raised e -> e = no_tolist) ∧
  state_of (get_state_bytes s) = s.
Proof.
  assert (Hex : (exists d, d ∈ adjudicated s ∧ vector d = None) ->
                ¬ forall d, d ∈ adjudicated s -> is_Some (vector d)).
  { intros (d & Hd & Hnone) Hall. destruct (Hall d Hd) as [v Hv].
    congruence. }
  assert (Hcases :
    (result_of (get_state_bytes s)
       = Ok (zip_writestr STATE_ZIP_FILENAME
               (json_dumps (state_document s))) ∧
     forall d, d ∈ adjudicated s -> is_Some (vector d)) ∨
    (result_of (get_state_bytes s) = Raised no_tolist ∧
     exists d, d ∈ adjudicated s ∧ vector d = None)).
  { unfold get_state_bytes, adjudicated, state_document. op_unfold. cbn.
    destruct (d_set_to_list_cases (positive_descriptors s))
      as [[-> H1] | [-> (d & Hd & Hnone)]]; cbn.
    2: { right. split; [done |]. exists d. split; [set_solver | done]. }
    destruct (d_set_to_list_cases (negative_descriptors s))
      as [[-> H2] | [-> (d & Hd & Hnone)]]; cbn.
    2: { right. split; [done |]. exists d. split; [set_solver | done]. }
    destruct (d_set_to_list_cases (external_positive_descriptors s))
      as [[-> H3] | [-> (d & Hd & Hnone)]]; cbn.
    2: { right. split; [done |]. exists d. split; [set_solver | done]. }
    destruct (d_set_to_list_cases (external_negative_descriptors s))
      as [[-> H4] | [-> (d & Hd & Hnone)]]; cbn.
    2: { right. split; [done |]. exists d. split; [set_solver | done]. }
    left. split; [done |]. set_solver. }
  split_and!.
  - destruct Hcases as [[-> Hall] | [-> Hd]]; split; try done.
    intros Hd. by apply Hex in Hd.
  - destruct Hcases as [[-> Hall] | [-> Hd]]; split; try done.
    intros Hall. by apply Hex in Hd.
  - intros e. destruct Hcases as [[-> _] | [-> _]]; congruence.
  - apply get_state_bytes_state.
Qed.

(** X25.  [get_state_bytes] reads the four adjudication sets only: two
    sessions with the same four sets, whatever their working sets,
    results, cached views, identifiers and rankers, raise the same
    error or both return, and the documents in the archives they return
    hold the same entries under each of the four names, in some
    order. *)
Theorem get_state_bytes_reads_adjudications_only s1 s2 :
  positive_descriptors s1 = positive_descriptors s2 ->
  negative_descriptors s1 = negative_descriptors s2 ->
  external_positive_descriptors s1 = external_positive_descriptors s2 ->
  external_negative_descriptors s1 = external_negative_descriptors s2 ->
  (forall e, result_of (get_state_bytes s1) = Raised e <->
             result_of (get_state_bytes s2) = Raised e) ∧
  (forall b1 b2,
     result_of (get_state_bytes s1) = Ok b1 ->
     result_of (get_state_bytes s2) = Ok b2 ->
     exists d1 d2,
       parsed_state b1 = Some d1 ∧ parsed_state b2 = Some d2 ∧
       forall name,
         name ∈ ["pos"; "neg"; "external_pos"; "external_neg"] ->
         exists l1 l2,
           state_item d1 name = Ok l1 ∧ state_item d2 name = Ok l2 ∧
           l1 ≡ₚ l2).
Proof.
  intros Hp Hn Hep Hen.
  assert (Hdoc : state_document s1 = state_document s2).
  { unfold state_document. by rewrite Hp, Hn, Hep, Hen. }
  assert (Hres : result_of (get_state_bytes s1)
                 = result_of (get_state_bytes s2)).
  { unfold get_state_bytes. op_unfold. cbn. rewrite Hp, Hn, Hep, Hen.
    repeat (match goal with
            | |- context [d_set_to_list ?X] => destruct (d_set_to_list X)
            end; cbn); done. }
  split; [intros e; by rewrite Hres |].
  intros b1 b2 Hb1 Hb2.
  assert (Hb : result_of (get_state_bytes s1)
               = Ok (zip_writestr STATE_ZIP_FILENAME
                       (json_dumps (state_document s1)))).
  { unfold get_state_bytes, state_document. op_unfold. cbn.
    destruct (d_set_to_list_cases (positive_descriptors s1))
      as [[-> _] | [Hx _]]; cbn.
    2: { revert Hb1. unfold get_state_bytes. op_unfold. cbn.
         by rewrite Hx. }
    destruct (d_set_to_list_cases (negative_descriptors s1))
      as [[-> _] | [Hx _]]; cbn.
    2: { revert Hb1. unfold get_state_bytes. op_unfold. cbn.
         destruct (d_set_to_list (positive_descriptors s1)); cbn;
           [by rewrite Hx | done]. }
    destruct (d_set_to_list_cases (external_positive_descriptors s1))
      as [[-> _] | [Hx _]]; cbn.
    2: { revert Hb1. unfold get_state_bytes. op_unfold. cbn.
         destruct (d_set_to_list (positive_descriptors s1)); cbn;
           [| done].
         destruct (d_set_to_list (negative_descriptors s1)); cbn;
           [by rewrite Hx | done]. }
    destruct (d_set_to_list_cases (external_negative_descriptors s1))
      as [[-> _] | [Hx _]]; cbn; [done |].
    revert Hb1. unfold get_state_bytes. op_unfold. cbn.
    destruct (d_set_to_list (positive_descriptors s1)); cbn; [| done].
    destruct (d_set_to_list (negative_descriptors s1)); cbn; [| done].
    destruct (d_set_to_list (external_positive_descriptors s1)); cbn;
      [by rewrite Hx | done]. }
  assert (b1 = zip_writestr STATE_ZIP_FILENAME
                 (json_dumps (state_document s1))) as -> by congruence.
  assert (b2 = zip_writestr STATE_ZIP_FILENAME
                 (json_dumps (state_document s1))) as -> by congruence.
  assert (Hparsed : parsed_state
                      (zip_writestr STATE_ZIP_FILENAME
                         (json_dumps (state_document s1)))
                    = Some (state_document s1)).
  { unfold parsed_state.
    rewrite zip_namelist_writestr, decide_True by (by left).
    by rewrite zip_read_writestr, json_loads_dumps. }
  exists (state_document s1), (state_document s1).
  split_and!; [done | done |].
  intros name Hname.
  repeat (apply elem_of_cons in Hname as [-> | Hname];
          [by eexists _, _ |]).
  by apply elem_of_nil in Hname.
Qed.

(** X26.  The bytes exported from one session can be imported into any
    other session: when every adjudicated descriptor of the exporting
    session has a vector and the factory reproduces it, the import
    returns, the importing session has the four adjudication sets of
    the exporting one, and everything else in it is as after its own
    [reset]. *)
Theorem state_bytes_transfer factory s1 s2 :
  (forall d, d ∈ adjudicated s1 ->
             is_Some (vector d) ∧ reproduces factory d) ->
  exists b,
    result_of (get_state_bytes s1) = Ok b ∧
    let imported := set_state_bytes b factory s2 in
    result_of imported = Ok tt ∧
    positive_descriptors (state_of imported) = positive_descriptors s1 ∧
    negative_descriptors (state_of imported) = negative_descriptors s1 ∧
    external_positive_descriptors (state_of imported)
      = external_positive_descriptors s1 ∧
    external_negative_descriptors (state_of imported)
      = external_negative_descriptors s1 ∧
    same_but_adjudications (state_of (reset s2)) (state_of imported).
Proof.
  intros Hs1.
  destruct (get_state_bytes_ok s1) as [t ->].
  { intros d Hd. by apply Hs1. }
  eexists. cbn. split; [reflexivity |].
  rewrite set_state_bytes_saved.
  destruct (reset_then_run (load_state factory (state_document s1)) s2)
    as [-> ->].
  destruct (load_state_ok factory s1 (state_of (reset (upd_lock S s2))))
    as [t1 ->]; [done |].
  rewrite !reset_state. cbn. unfold same_but_adjudications.
  split_and!; try done; set_solver.
Qed.
End CodecEffects.

(** ** The lock over sequences of calls *)

Lemma update_working_set_keeps_hold nn_index :
  keeps_hold (update_working_set nn_index).
Proof. unfold update_working_set, query_seed. hold. Qed.

Lemma update_working_set_lock nn_index s :
  lock (state_of (update_working_set nn_index s)) = lock s.
Proof.
  destruct (update_working_set_cases nn_index s) as [[_ ->] | [_ ->]];
    [done |]. cbn [state_of fst snd].
  apply (for_each_preserves (fun s s' => lock s' = lock s));
    [done | congruence |].
  intros p _ s1.
  destruct (query_seed_cases nn_index p s1)
    as [[_ ->] | [(_ & _ & ->) | (_ & ns & _ & ->)]]; [done | done |].
  by destruct s1.
Qed.

Section LockBalance.
Context `{StateArchive}.

Lemma perform_lock c s : lock (perform c s) = lock s.
Proof.
  destruct c; try (by apply other_calls_hold_lock).
  apply update_working_set_lock.
Qed.

(** X27.  No call of the public interface leaves the lock held or
    released once too often, whether it returns or raises: after any
    sequence of calls the hold count is the one the sequence started
    with. *)
Theorem calls_give_the_lock_back (calls : list Call) s :
  lock (perform_all calls s) = lock s.
Proof.
  unfold perform_all. revert s.
  induction calls as [| c calls IH]; intros s; [done |].
  cbn [foldl]. by rewrite IH, perform_lock.
Qed.
End LockBalance.

(** X28.  [update_working_set] takes no lock of its own, but a caller
    that holds the session as a context manager guards it: inside
    [with session:] every attribute it reads or writes is touched with
    the lock held, and the block gives the lock back on return and on
    raise.  The same holds for any caller that already holds the lock. *)
Theorem update_working_set_guarded_in_with_block nn_index s :
  guarded (trace_of (with_lock (update_working_set nn_index) s)) ∧
  lock (state_of (with_lock (update_working_set nn_index) s)) = lock s ∧
  (0 < lock s -> guarded (trace_of (update_working_set nn_index s))).
Proof.
  split_and!.
  - apply with_lock_self_locking, update_working_set_keeps_hold.
  - apply with_lock_self_locking, update_working_set_keeps_hold.
  - intros Hs. by apply update_working_set_keeps_hold.
Qed.

(** ** The further properties on the small sessions *)

Lemma example_grown_table :
  working_set example_grown
  = [("A", descriptor "A"); ("B", descriptor "B"); ("C", descriptor "C")].
Proof. vm_compute. reflexivity. Qed.

Lemma example_table_well_keyed :
  table_well_keyed
    [("A", descriptor "A"); ("B", descriptor "B"); ("C", descriptor "C")].
Proof.
  split; [| by repeat constructor].
  cbn. repeat (constructor; [set_solver |]). constructor.
Qed.

Lemma example_ranker_in_pool : shortlist_in_pool example_ranker.
Proof.
  intros pos neg pool uids ranking [= <-] u Hu. by apply elem_of_nil in Hu.
Qed.

Lemma example_adjudicated_sets d :
  d ∈ adjudicated example_adjudicated ->
  d = descriptor "P1" ∨ d = descriptor "P2".
Proof.
  unfold adjudicated, example_adjudicated.
  destruct (adjudicate_state [descriptor "P1"; descriptor "P2"] [] [] []
              example_new) as (b1 & b2 & b3 & ->).
  cbn. set_solver.
Qed.

Lemma adjudicate_same_labels_is_noop_witness :
  state_of (adjudicate [descriptor "P1"] [] [] [] example_adjudicated)
  = example_adjudicated.
Proof.
  apply (adjudicate_same_labels_is_noop [descriptor "P1"] []
           example_adjudicated).
  - unfold example_adjudicated.
    destruct (adjudicate_state [descriptor "P1"; descriptor "P2"] [] [] []
                example_new) as (b1 & b2 & b3 & ->).
    cbn. set_solver.
  - intros d ->%list_elem_of_singleton. unfold example_adjudicated.
    destruct (adjudicate_state [descriptor "P1"; descriptor "P2"] [] [] []
                example_new) as (b1 & b2 & b3 & ->).
    cbn. set_solver.
  - by intros d ?%elem_of_nil.
Defined.

Lemma working_set_is_never_pruned_witness :
  "A" ∈ (working_set
           (perform_all (H := entry_archive)
              [CallAdjudicate [] [] [descriptor "P1"] []; CallRefine;
               CallUpdateWorkingSet example_index]
              example_grown)).*1.
Proof.
  apply (working_set_is_never_pruned (H := entry_archive)
           [CallAdjudicate [] [] [descriptor "P1"] []; CallRefine;
            CallUpdateWorkingSet example_index]
           example_grown).
  - reflexivity.
  - rewrite example_grown_table. by left.
Defined.

Lemma update_working_set_index_failure_witness :
  exists p,
    p ∈ external_positive_descriptors example_unindexed
        ∪ positive_descriptors example_unindexed ∧
    (uuid p ∉ _wi_seeds_used
                (state_of (update_working_set example_index
                             example_unindexed))) ∧
    example_index p (pos_seed_neighbors example_unindexed) = None.
Proof.
  apply (update_working_set_index_failure example_index example_unindexed).
  vm_compute. reflexivity.
Defined.

Lemma refine_raise_leaves_session_witness :
  state_of (refine example_adjudicated) = example_adjudicated.
Proof.
  apply (refine_raise_leaves_session nothing_to_unpack example_adjudicated).
  - vm_compute. reflexivity.
  - intros k. discriminate.
Defined.

Lemma refine_stray_shortlist_keeps_new_results_witness :
  exists k,
    result_of (refine example_stray) = Raised (KeyError k) ∧
    k ∈ ["Q"] ∧
    (k ∉ (working_set example_stray).*1) ∧
    state_of (refine example_stray) =
      upd_results
        (fun _ => Some (dict_of_pairs
                          (zip (iterdescriptors (working_set example_stray))
                               [9 # 10; 5 # 10; 1 # 10]%Q)))
        example_stray ∧
    forall rows,
      _ordered_results example_stray = Some rows ->
      result_of (ordered_results (state_of (refine example_stray)))
      = Ok rows.
Proof.
  apply (refine_stray_shortlist_keeps_new_results
           ([9 # 10; 5 # 10; 1 # 10]%Q, ["Q"]) example_stray).
  - intros Hempty.
    assert (Hin : descriptor "P1"
                  ∈ positive_descriptors example_stray
                    ∪ external_positive_descriptors example_stray).
    { apply elem_of_union_l. vm_compute. reflexivity. }
    rewrite Hempty in Hin. by apply not_elem_of_empty in Hin.
  - vm_compute. discriminate.
  - reflexivity.
  - exists "Q". split; [by left |].
    replace (working_set example_stray)
      with [("A", descriptor "A"); ("B", descriptor "B");
            ("C", descriptor "C")]
      by (vm_compute; reflexivity).
    cbn. set_solver.
Defined.

Lemma refine_scores_pool_in_order_witness :
  exists ranking,
    ranking_of example_grown = Some ranking ∧
    results (state_of (refine example_grown)) =
      Some (zip (iterdescriptors (working_set example_grown)) ranking.1) ∧
    working_set (state_of (refine example_grown))
    = working_set example_grown.
Proof.
  apply (refine_scores_pool_in_order example_grown).
  - rewrite example_grown_table. apply example_table_well_keyed.
  - vm_compute. reflexivity.
Defined.

Lemma feedback_results_follow_shortlist_witness :
  exists ranking feedback,
    ranking_of example_feedback = Some ranking ∧
    result_of
      (feedback_results
         (perform_all (H := entry_archive)
            [CallAdjudicate [descriptor "A"] [] [] []; CallOrderedResults]
            (state_of (refine example_feedback))))
    = Ok feedback ∧
    uuid <$> feedback = ranking.2 ∧
    forall d, d ∈ feedback ->
              d ∈ iterdescriptors (working_set example_feedback).
Proof.
  apply (feedback_results_follow_shortlist (H := entry_archive)
           example_feedback
           [CallAdjudicate [descriptor "A"] [] [] []; CallOrderedResults]).
  - replace (working_set example_feedback)
      with [("A", descriptor "A"); ("B", descriptor "B");
            ("C", descriptor "C")]
      by (vm_compute; reflexivity).
    apply example_table_well_keyed.
  - vm_compute. reflexivity.
  - reflexivity.
Defined.

Lemma negative_view_follows_refine_snapshot_witness :
  result_of
    (get_negative_adjudication_relevancy
       (perform_all (H := entry_archive)
          [CallAdjudicate [] [descriptor "B"] [] [];
           CallNegativeRelevancy;
           CallAdjudicate [] [] [] [descriptor "C"]]
          (state_of (refine
             (state_of (adjudicate [] [descriptor "C"] [] []
                          example_grown))))))
  = Ok (filter
          (fun t => t.1 ∈ negative_descriptors
                            (state_of (adjudicate [] [descriptor "C"] [] []
                                         example_grown))
                          ∪ external_negative_descriptors
                              (state_of (adjudicate [] [descriptor "C"] [] []
                                           example_grown)))
          (ranked_rows
             (state_of (refine
                (state_of (adjudicate [] [descriptor "C"] [] []
                             example_grown)))))).
Proof.
  apply (negative_view_follows_refine_snapshot (H := entry_archive)
           (state_of (adjudicate [] [descriptor "C"] [] [] example_grown))
           [CallAdjudicate [] [descriptor "B"] [] [];
            CallNegativeRelevancy;
            CallAdjudicate [] [] [] [descriptor "C"]]).
  - vm_compute. reflexivity.
  - reflexivity.
Defined.

Lemma unadjudicated_view_follows_refine_snapshot_witness :
  result_of
    (get_unadjudicated_relevancy
       (perform_all (H := entry_archive)
          [CallAdjudicate [descriptor "A"] [descriptor "B"] [] []]
          (state_of (refine example_grown))))
  = Ok (filter
          (fun t => t.1 ∉ positive_descriptors example_grown
                          ∪ external_positive_descriptors example_grown
                          ∪ negative_descriptors example_grown
                          ∪ external_negative_descriptors example_grown)
          (ranked_rows (state_of (refine example_grown)))).
Proof.
  apply (unadjudicated_view_follows_refine_snapshot (H := entry_archive)
           example_grown
           [CallAdjudicate [descriptor "A"] [descriptor "B"] [] []]).
  - vm_compute. reflexivity.
  - reflexivity.
Defined.

Lemma views_split_ordered_results_witness :
  exists rows pos neg unadjudicated,
    let s :=
      perform_all (H := entry_archive)
        [CallAdjudicate [descriptor "P1"; descriptor "P2"] [] [] [];
         CallUpdateWorkingSet example_index;
         CallAdjudicate [descriptor "A"] [descriptor "C"] [] [];
         CallRefine]
        example_new in
    result_of (ordered_results s) = Ok rows ∧
    result_of (get_positive_adjudication_relevancy s) = Ok pos ∧
    result_of (get_negative_adjudication_relevancy s) = Ok neg ∧
    result_of (get_unadjudicated_relevancy s) = Ok unadjudicated ∧
    (forall t, t ∈ pos ∨ t ∈ neg ∨ t ∈ unadjudicated -> t ∈ rows) ∧
    (forall t, t ∈ rows ->
       t ∈ unadjudicated <-> (t ∉ pos) ∧ (t ∉ neg)).
Proof.
  apply (views_split_ordered_results (H := entry_archive)
           example_ranker 2 "session"
           [CallAdjudicate [descriptor "P1"; descriptor "P2"] [] [] [];
            CallUpdateWorkingSet example_index;
            CallAdjudicate [descriptor "A"] [descriptor "C"] [] [];
            CallRefine]).
  apply example_ranker_in_pool.
Defined.

Lemma set_state_bytes_resets_first_witness :
  working_set
    (state_of (set_state_bytes (H := entry_archive) example_bytes
                 descriptor example_grown)) = [] ∧
  session_uid
    (state_of (set_state_bytes (H := entry_archive) example_bytes
                 descriptor example_grown)) = session_uid example_grown.
Proof.
  destruct (set_state_bytes_resets_first (H := entry_archive)
              example_bytes descriptor example_document example_grown)
    as (Hws & _ & _ & _ & _ & _ & _ & _ & _ & _ & _ & _ & Huid & _).
  - reflexivity.
  - split; [exact Hws | exact Huid].
Defined.

Lemma set_state_bytes_returns_iff_witness :
  result_of (set_state_bytes (H := entry_archive) example_bytes
               example_factory example_grown) = Ok tt.
Proof.
  destruct (set_state_bytes_returns_iff (H := entry_archive)
              example_bytes example_factory example_document
              [("E", [1%Q])] [] [("D", [1%Q])] [("D", [1%Q])]
              example_grown) as ([_ Hret] & _).
  - reflexivity.
  - by repeat split.
  - apply Hret. by repeat constructor.
Defined.

Lemma set_state_bytes_keeps_overlap_witness :
  loaded example_factory ("D", [1%Q])
    ∈ positive_descriptors
        (state_of (set_state_bytes (H := entry_archive) example_bytes
                     example_factory example_grown)) ∧
  loaded example_factory ("D", [1%Q])
    ∈ negative_descriptors
        (state_of (set_state_bytes (H := entry_archive) example_bytes
                     example_factory example_grown)).
Proof.
  apply (set_state_bytes_keeps_overlap (H := entry_archive)
           example_bytes example_factory example_document
           [("E", [1%Q])] [] [("D", [1%Q])] [("D", [1%Q])]).
  - reflexivity.
  - by repeat split.
  - vm_compute. reflexivity.
  - by left.
  - by left.
Defined.

Lemma get_state_bytes_reads_adjudications_only_witness :
  exists d1 d2,
    parsed_state (H := entry_archive)
      ("iqr_state.json", state_document example_adjudicated) = Some d1 ∧
    parsed_state (H := entry_archive)
      ("iqr_state.json", state_document example_grown) = Some d2 ∧
    forall name,
      name ∈ ["pos"; "neg"; "external_pos"; "external_neg"] ->
      exists l1 l2,
        state_item d1 name = Ok l1 ∧ state_item d2 name = Ok l2 ∧
        l1 ≡ₚ l2.
Proof.
  destruct (get_state_bytes_reads_adjudications_only (H := entry_archive)
              example_adjudicated example_grown) as [_ Hdocs];
    [vm_compute; reflexivity .. |].
  apply Hdocs; vm_compute; reflexivity.
Defined.

Lemma state_bytes_transfer_witness :
  exists b,
    result_of (get_state_bytes (H := entry_archive) example_adjudicated)
      = Ok b ∧
    result_of (set_state_bytes (H := entry_archive) b example_factory
                 example_new) = Ok tt ∧
    positive_descriptors
      (state_of (set_state_bytes (H := entry_archive) b example_factory
                   example_new))
    = positive_descriptors example_adjudicated.
Proof.
  destruct (state_bytes_transfer (H := entry_archive) example_factory
              example_adjudicated example_new) as (b & Hb & Hr & Hpos & _).
  - intros d [-> | ->]%example_adjudicated_sets;
      (split; [by eexists | split; [reflexivity | by left]]).
  - exists b. split; [exact Hb |]. split; [exact Hr | exact Hpos].
Defined.

(** ** A ranker that leaves the pool *)

